(** * A shallow embedding of [pkg/data/list.go]

    The Go package [data] implements a generic singly-linked list
    [List[T]] whose nodes live on the heap and whose state is guarded by a
    [sync.RWMutex].  The embedding keeps the heap explicit: list nodes and
    list headers are records stored in finite maps indexed by addresses,
    the nil pointer is [None], and every method is a computation in a
    small state-and-failure monad that can return, panic (nil
    dereference), block (lock not available) or exhaust the fuel that
    bounds its pointer-chasing loops. *)

From stdpp Require Import gmap strings list fin_maps.
From Stdlib Require Import ZArith DecimalString Permutation.

Local Open Scope Z_scope.
Set Warnings "-clear-no-such-hyp".

(** ** Element types: the [ListData] constraint *)

(** [type ListData interface { comparable; String() string }].  Every Go
    type also has a zero value ([var unset T]). *)
Class ListData (T : Type) := {
  ListData_comparable :: EqDecision T;
  ListData_String : T → string;
  ListData_zero : T
}.

(** ** Machine integers and formatting *)

(** Go's [int] on a 64-bit platform: [x++] and [x--] wrap around. *)
Definition int_min : Z := - 2 ^ 63.
Definition int_max : Z := 2 ^ 63 - 1.
Definition int_wrap (z : Z) : Z := (z + 2 ^ 63) mod 2 ^ 64 - 2 ^ 63.

(** The verb [%d] of [fmt.Sprintf] applied to an [int]: the decimal
    digits, with a leading minus sign on negative numbers. *)
Definition fmt_d (z : Z) : string := NilZero.string_of_int (Z.to_int z).

(** ** Pointers, nodes, list headers, the mutex *)

(** Addresses of heap cells; a pointer is an optional address and [None]
    is Go's [nil]. *)
Abbreviation loc := positive (only parsing).
Abbreviation ptr := (option positive) (only parsing).

(** [errors.New(text)]. *)
Inductive error : Type := errors_New (text : string).

(** The state of a [sync.RWMutex]: whether a writer holds it and how many
    readers do. *)
Record RWMutex : Type := mkRWMutex { RWMutex_w : bool; RWMutex_r : nat }.

Definition RWMutex_free : RWMutex := mkRWMutex false 0.

(** [type ListNode[T] struct { value T; next *ListNode[T] }] *)
Record ListNode (T : Type) : Type := mkListNode {
  ListNode_value : T;
  ListNode_next : ptr
}.
Arguments mkListNode {T} _ _.
Arguments ListNode_value {T} _.
Arguments ListNode_next {T} _.

(** [type List[T] struct { head, tail *ListNode[T]; length int;
    mux *sync.RWMutex }].  The mutex is reachable through this field only
    (the field is unexported and [NewList] allocates the mutex), so the
    header stores the mutex itself; [None] is the nil [mux] of a
    zero-valued header. *)
Record List : Type := mkList {
  List_head : ptr;
  List_tail : ptr;
  List_length : Z;
  List_mux : option RWMutex
}.

(** Field assignments. *)
Definition List_with_head (q : ptr) (L : List) : List :=
  mkList q (List_tail L) (List_length L) (List_mux L).
Definition List_with_tail (q : ptr) (L : List) : List :=
  mkList (List_head L) q (List_length L) (List_mux L).
Definition List_with_length (n : Z) (L : List) : List :=
  mkList (List_head L) (List_tail L) n (List_mux L).
Definition List_with_mux (mu : option RWMutex) (L : List) : List :=
  mkList (List_head L) (List_tail L) (List_length L) mu.

(** The heap: the allocated list nodes and the allocated list headers. *)
Record mem (T : Type) : Type := mkMem {
  nodes : gmap positive (ListNode T);
  lists : gmap positive List
}.
Arguments mkMem {T} _ _.
Arguments nodes {T} _.
Arguments lists {T} _.

Definition with_nodes {T} (h : gmap positive (ListNode T)) (m : mem T) : mem T :=
  mkMem h (lists m).
Definition with_lists {T} (ls : gmap positive List) (m : mem T) : mem T :=
  mkMem (nodes m) ls.

Definition mem_empty {T} : mem T := mkMem ∅ ∅.

(** ** The monad of method bodies *)

Inductive outcome (T A : Type) : Type :=
| Returns (a : A) (m : mem T)   (* normal return with the final heap *)
| Panics                        (* run-time panic: nil dereference, ... *)
| Blocks                        (* waits for a lock that is not released *)
| OutOfFuel.                    (* the loop budget is exhausted *)
Arguments Returns {T A} _ _.
Arguments Panics {T A}.
Arguments Blocks {T A}.
Arguments OutOfFuel {T A}.

Definition M (T A : Type) : Type := mem T → outcome T A.

Global Instance M_ret {T} : MRet (M T) := λ A a m, Returns a m.
Global Instance M_bind {T} : MBind (M T) := λ A B f c m,
  match c m with
  | Returns a m' => f a m'
  | Panics => Panics
  | Blocks => Blocks
  | OutOfFuel => OutOfFuel
  end.

Definition panic {T A} : M T A := λ _, Panics.
Definition out_of_fuel {T A} : M T A := λ _, OutOfFuel.

(** [defer d] followed by [body]: the deferred call runs when the body
    returns, and the body's results are the function's results. *)
Definition defer {T A} (d : M T unit) (body : M T A) : M T A :=
  a ← body; d;; mret a.

Section data.
Context {T : Type} `{!ListData T}.

Implicit Types (m : mem T) (list listNode : ptr) (l p : loc).

(** *** Primitive heap accesses *)

(** Dereferencing a pointer to a list header; nil panics. *)
Definition deref_List (list : ptr) : M T loc :=
  match list with Some l => mret l | None => panic end.

Definition get_List (l : loc) : M T List := λ m,
  match lists m !! l with Some L => Returns L m | None => Panics end.

Definition modify_List (l : loc) (f : List → List) : M T unit := λ m,
  match lists m !! l with
  | Some L => Returns () (with_lists (<[l := f L]> (lists m)) m)
  | None => Panics
  end.

Definition get_ListNode (p : loc) : M T (ListNode T) := λ m,
  match nodes m !! p with Some n => Returns n m | None => Panics end.

(** [p.next = q] *)
Definition set_next (p : loc) (q : ptr) : M T unit := λ m,
  match nodes m !! p with
  | Some n => Returns () (with_nodes (<[p := mkListNode (ListNode_value n) q]> (nodes m)) m)
  | None => Panics
  end.

(** [&ListNode[T]{value, next}]: a node at an address not in use. *)
Definition new_ListNode (n : ListNode T) : M T loc := λ m,
  let p := fresh (dom (nodes m)) in
  Returns p (with_nodes (<[p := n]> (nodes m)) m).

Definition set_head (l : loc) (q : ptr) : M T unit :=
  modify_List l (List_with_head q).
Definition set_tail (l : loc) (q : ptr) : M T unit :=
  modify_List l (List_with_tail q).
(** [list.length++] and [list.length--] *)
Definition incr_length (l : loc) : M T unit :=
  modify_List l (λ L, List_with_length (int_wrap (List_length L + 1)) L).
Definition decr_length (l : loc) : M T unit :=
  modify_List l (λ L, List_with_length (int_wrap (List_length L - 1)) L).

(** *** [sync.RWMutex] through [list.mux]

    A nil [mux] panics.  [Lock] needs the mutex free, [RLock] needs no
    writer; unlocking a mutex that is not held is a fatal error. *)
Definition with_mux (l : loc) (k : RWMutex → option (option RWMutex)) : M T unit := λ m,
  match lists m !! l with
  | Some L =>
      match List_mux L with
      | Some mu =>
          match k mu with
          | Some (Some mu') =>
              Returns () (with_lists (<[l := List_with_mux (Some mu') L]> (lists m)) m)
          | Some None => Blocks
          | None => Panics
          end
      | None => Panics
      end
  | None => Panics
  end.

Definition RWMutex_Lock (l : loc) : M T unit :=
  with_mux l (λ mu,
    Some (if RWMutex_w mu then None
          else match RWMutex_r mu with
               | O => Some (mkRWMutex true 0)
               | S _ => None
               end)).

Definition RWMutex_Unlock (l : loc) : M T unit :=
  with_mux l (λ mu,
    if RWMutex_w mu then Some (Some (mkRWMutex false (RWMutex_r mu))) else None).

Definition RWMutex_RLock (l : loc) : M T unit :=
  with_mux l (λ mu,
    Some (if RWMutex_w mu then None
          else Some (mkRWMutex false (S (RWMutex_r mu))))).

Definition RWMutex_RUnlock (l : loc) : M T unit :=
  with_mux l (λ mu,
    match RWMutex_r mu with
    | S r => Some (Some (mkRWMutex (RWMutex_w mu) r))
    | O => None
    end).

(** *** The methods of [list.go] *)

(** [func NewList[T ListData]() *List[T]] *)
Definition NewList : M T ptr := λ m,
  let l := fresh (dom (lists m)) in
  Returns (Some l)
    (with_lists (<[l := mkList None None 0 (Some RWMutex_free)]> (lists m)) m).

(** [func (list *List[T]) Length() int] *)
Definition List_Length (list : ptr) : M T Z :=
  l ← deref_List list;
  L ← get_List l;
  mret (List_length L).

(** [func (list *List[T]) Head() *ListNode[T]] *)
Definition List_Head (list : ptr) : M T ptr :=
  match list with
  | None => mret None
  | Some l => L ← get_List l; mret (List_head L)
  end.

(** [func (list *List[T]) Tail() *ListNode[T]] *)
Definition List_Tail (list : ptr) : M T ptr :=
  match list with
  | None => mret None
  | Some l => L ← get_List l; mret (List_tail L)
  end.

(** [func (listNode *ListNode[T]) Value() (T, bool)] *)
Definition ListNode_Value (listNode : ptr) : M T (T * bool) :=
  let unset := ListData_zero in
  match listNode with
  | None => mret (unset, false)
  | Some p => n ← get_ListNode p; mret (ListNode_value n, true)
  end.

(** [func (listNode *ListNode[T]) Next() *ListNode[T]] *)
Definition ListNode_Next (listNode : ptr) : M T ptr :=
  match listNode with
  | None => mret None
  | Some p => n ← get_ListNode p; mret (ListNode_next n)
  end.

(** The statements of [Insert] executed while the write lock is held
    (list.go lines 80-86). *)
Definition Insert_locked (l : loc) (value : T) : M T (option error) :=
  L ← get_List l;
  listNode ← new_ListNode (mkListNode value (List_head L));
  L ← get_List l;
  (match List_tail L with
   | None => set_tail l (Some listNode)
   | Some _ => mret ()
   end);;
  set_head l (Some listNode);;
  incr_length l;;
  mret None.

(** [func (list *List[T]) Insert(value T) error] *)
Definition List_Insert (list : ptr) (value : T) : M T (option error) :=
  match list with
  | None => mret (Some (errors_New "list is nil"))
  | Some l =>
      RWMutex_Lock l;;
      defer (RWMutex_Unlock l) (Insert_locked l value)
  end.

(** The statements of [Append] executed while the write lock is held
    (list.go lines 96-105). *)
Definition Append_locked (l : loc) (value : T) : M T (option error) :=
  listNode ← new_ListNode (mkListNode value None);
  L ← get_List l;
  (match List_tail L with
   | None =>
       set_tail l (Some listNode);;
       set_head l (Some listNode)
   | Some t =>
       set_next t (Some listNode);;
       set_tail l (Some listNode)
   end);;
  incr_length l;;
  mret None.

(** [func (list *List[T]) Append(value T) error] *)
Definition List_Append (list : ptr) (value : T) : M T (option error) :=
  match list with
  | None => mret (Some (errors_New "list is nil"))
  | Some l =>
      RWMutex_Lock l;;
      defer (RWMutex_Unlock l) (Append_locked l value)
  end.

(** The loop of [findParent] (list.go lines 116-123), one unit of fuel
    per iteration. *)
Fixpoint findParent_loop (fuel : nat) (value : T) (lastNode currentNode : ptr)
  : M T (ptr * ptr) :=
  match currentNode with
  | None => mret (None, None)
  | Some c =>
      match fuel with
      | O => out_of_fuel
      | S fuel' =>
          n ← get_ListNode c;
          if decide (ListNode_value n = value) then mret (lastNode, currentNode)
          else findParent_loop fuel' value currentNode (ListNode_next n)
      end
  end.

(** [func (list *List[T]) findParent(value T) (parent, found *ListNode[T])] *)
Definition List_findParent (fuel : nat) (list : ptr) (value : T) : M T (ptr * ptr) :=
  match list with
  | None => mret (None, None)
  | Some l =>
      L ← get_List l;
      findParent_loop fuel value None (List_head L)
  end.

(** [func (list *List[T]) Find(value T) (listNode *ListNode[T])]: the
    read lock is taken through [list.mux] before [findParent] looks at
    [list]. *)
Definition List_Find (fuel : nat) (list : ptr) (value : T) : M T ptr :=
  l ← deref_List list;
  RWMutex_RLock l;;
  defer (RWMutex_RUnlock l)
    ('(_, found) ← List_findParent fuel list value;
     mret found).

(** The statements of [Delete] executed while the write lock is held
    (list.go lines 140-154). *)
Definition Delete_locked (fuel : nat) (l : loc) (value : T) : M T bool :=
  '(parent, found) ← List_findParent fuel (Some l) value;
  match found with
  | None => mret false
  | Some f =>
      (match parent with
       | Some p => fn ← get_ListNode f; set_next p (ListNode_next fn)
       | None => mret ()
       end);;
      L ← get_List l;
      (if decide (List_head L = found)
       then fn ← get_ListNode f; set_head l (ListNode_next fn)
       else mret ());;
      L ← get_List l;
      (if decide (List_tail L = found) then set_tail l parent else mret ());;
      decr_length l;;
      mret true
  end.

(** [func (list *List[T]) Delete(value T) bool] *)
Definition List_Delete (fuel : nat) (list : ptr) (value : T) : M T bool :=
  l ← deref_List list;
  RWMutex_Lock l;;
  defer (RWMutex_Unlock l) (Delete_locked fuel l value).

(** The statements of [DeleteHead] executed while the write lock is held
    (list.go lines 161-171). *)
Definition DeleteHead_locked (l : loc) : M T (T * bool) :=
  let value := ListData_zero in
  L ← get_List l;
  match List_head L with
  | None => mret (value, false)
  | Some hd =>
      n ← get_ListNode hd;
      let value := ListNode_value n in
      n ← get_ListNode hd;
      set_head l (ListNode_next n);;
      L ← get_List l;
      (match List_head L with
       | None => set_tail l None
       | Some _ => mret ()
       end);;
      decr_length l;;
      mret (value, true)
  end.

(** [func (list *List[T]) DeleteHead() (T, bool)] *)
Definition List_DeleteHead (list : ptr) : M T (T * bool) :=
  l ← deref_List list;
  RWMutex_Lock l;;
  defer (RWMutex_Unlock l) (DeleteHead_locked l).

(** The loop of [DeleteTail] (list.go lines 186-190): it visits every
    node and remembers the one whose [next] is [list.tail]. *)
Fixpoint DeleteTail_loop (fuel : nat) (l : loc) (parent node : ptr) : M T ptr :=
  match node with
  | None => mret parent
  | Some c =>
      match fuel with
      | O => out_of_fuel
      | S fuel' =>
          n ← get_ListNode c;
          L ← get_List l;
          let parent := if decide (ListNode_next n = List_tail L) then node else parent in
          n ← get_ListNode c;
          DeleteTail_loop fuel' l parent (ListNode_next n)
      end
  end.

(** The statements of [DeleteTail] executed while the write lock is held
    (list.go lines 178-199). *)
Definition DeleteTail_locked (fuel : nat) (l : loc) : M T (T * bool) :=
  let value := ListData_zero in
  L ← get_List l;
  match List_tail L with
  | None => mret (value, false)
  | Some t =>
      tn ← get_ListNode t;
      let value := ListNode_value tn in
      L ← get_List l;
      parent ← DeleteTail_loop fuel l None (List_head L);
      (match parent with
       | None =>
           set_head l None;;
           set_tail l None
       | Some p =>
           set_next p None;;
           set_tail l parent
       end);;
      decr_length l;;
      mret (value, true)
  end.

(** [func (list *List[T]) DeleteTail() (T, bool)] *)
Definition List_DeleteTail (fuel : nat) (list : ptr) : M T (T * bool) :=
  l ← deref_List list;
  RWMutex_Lock l;;
  defer (RWMutex_Unlock l) (DeleteTail_locked fuel l).

(** One evaluation of the loop of [ForEach] (list.go lines 207-209): the
    guard [currentNode != nil], then the body [f(currentNode.value)].
    The visitor [f] is a Go closure; its effect is a transformer of the
    visitor's own state [S].  The result is the loop state after the
    iteration, or [None] when the guard fails and the loop exits. *)
Definition ForEach_iteration {S : Type} (f : T → S → S) (st : ptr * S)
  : M T (option (ptr * S)) :=
  match st.1 with
  | None => mret None
  | Some c =>
      n ← get_ListNode c;
      mret (Some (st.1, f (ListNode_value n) st.2))
  end.

Fixpoint ForEach_loop {S : Type} (fuel : nat) (f : T → S → S) (st : ptr * S) : M T S :=
  o ← ForEach_iteration f st;
  match o with
  | None => mret st.2
  | Some st' =>
      match fuel with
      | O => out_of_fuel
      | S fuel' => ForEach_loop fuel' f st'
      end
  end.

(** [func (list *List[T]) ForEach(f func(T))] *)
Definition List_ForEach {S : Type} (fuel : nat) (list : ptr) (f : T → S → S) (s : S) : M T S :=
  l ← deref_List list;
  RWMutex_RLock l;;
  defer (RWMutex_RUnlock l)
    (L ← get_List l;
     ForEach_loop fuel f (List_head L, s)).

(** [make([]T, 0, cap)] panics on a negative capacity. *)
Definition make_slice (cap : Z) : M T (list T) :=
  if decide (cap < 0) then panic else mret [].

(** The first loop of [String] (list.go lines 221-224). *)
Fixpoint String_loop (fuel : nat) (currentNode : ptr) (values : list T) : M T (list T) :=
  match currentNode with
  | None => mret values
  | Some c =>
      match fuel with
      | O => out_of_fuel
      | S fuel' =>
          n ← get_ListNode c;
          let values := values ++ [ListNode_value n] in
          n ← get_ListNode c;
          String_loop fuel' (ListNode_next n) values
      end
  end.

(** [func (list *List[T]) String() string] *)
Definition List_String (fuel : nat) (list : ptr) : M T string :=
  match list with
  | None => mret ""%string
  | Some l =>
      RWMutex_RLock l;;
      defer (RWMutex_RUnlock l)
        (L ← get_List l;
         let currentNode := List_head L in
         L ← get_List l;
         values ← make_slice (List_length L);
         values ← String_loop fuel currentNode values;
         L ← get_List l;
         let s := ("Length: " +:+ fmt_d (List_length L) +:+ ", Data:")%string in
         mret (foldl (λ s v, s +:+ " " +:+ ListData_String v)%string s values))
  end.

End data.

(** ** The element type of the tests: [type Data int] with
    [String() = strconv.Itoa] *)
Global Instance Data : ListData Z := {|
  ListData_comparable := Z.eq_dec;
  ListData_String := fmt_d;
  ListData_zero := 0
|}.

(** * Specification vocabulary *)

Section vocabulary.
Context {T : Type} `{!ListData T}.

Implicit Types (h : gmap positive (ListNode T)) (p q : ptr)
  (m : mem T) (l : positive) (cs : list (positive * T)) (mu : RWMutex).

(** [lseg h p q cs]: following [next] from [p] visits exactly the cells
    [cs] (address and stored value, in order) and arrives at [q]. *)
Fixpoint lseg h p q cs : Prop :=
  match cs with
  | [] => p = q
  | c :: cs' =>
      p = Some c.1 ∧ ∃ nx, h !! c.1 = Some (mkListNode c.2 nx) ∧ lseg h nx q cs'
  end.

(** [repr m l cs n mu]: in the heap [m], the header at [l] heads a
    nil-terminated chain with the cells [cs], its [tail] is the last cell
    of the chain (nil when there is none), its [length] field holds [n]
    and its mutex is in state [mu]. *)
Definition repr m l cs (n : Z) mu : Prop :=
  ∃ L, lists m !! l = Some L ∧
       lseg (nodes m) (List_head L) None cs ∧
       List_tail L = last cs.*1 ∧
       List_length L = n ∧
       List_mux L = Some mu.

(** A well-formed list between two calls: the [length] field counts the
    cells, it is an [int], and nobody holds the mutex. *)
Definition is_list m l cs : Prop :=
  repr m l cs (Z.of_nat (length cs)) RWMutex_free ∧
  Z.of_nat (length cs) ≤ int_max.

(** The heap [m] with the mutex of the header at [l] put in state [mu];
    this is what the four lock operations do to the heap. *)
Definition set_mux mu l m : mem T :=
  match lists m !! l with
  | Some L => with_lists (<[l := List_with_mux (Some mu) L]> (lists m)) m
  | None => m
  end.

(** The mutex held by one writer, and by one reader. *)
Definition RWMutex_held : RWMutex := mkRWMutex true 0.
Definition RWMutex_read : RWMutex := mkRWMutex false 1.

(** The error of [Insert] and [Append] on a nil handle. *)
Definition InvalidHandle : error := errors_New "list is nil".

(** Walking a list the way a caller does (the loop of the test helper
    [listAssert]): [Head], then [Value] and [Next] until nil. *)
Fixpoint traverse (fuel : nat) (node : ptr) : M T (list T) :=
  match node with
  | None => mret []
  | Some _ =>
      match fuel with
      | O => out_of_fuel
      | S fuel' =>
          '(value, _) ← ListNode_Value node;
          next ← ListNode_Next node;
          values ← traverse fuel' next;
          mret (value :: values)
      end
  end.

Definition traversal (fuel : nat) (list : ptr) : M T (Datatypes.list T) :=
  head ← List_Head list;
  traverse fuel head.

(** Sequences of mutating calls on one list. *)
Inductive op : Type :=
| Op_Insert (value : T)
| Op_Append (value : T)
| Op_Delete (value : T)
| Op_DeleteHead
| Op_DeleteTail.

Definition exec_op (fuel : nat) (list : ptr) (o : op) : M T unit :=
  match o with
  | Op_Insert value => List_Insert list value;; mret ()
  | Op_Append value => List_Append list value;; mret ()
  | Op_Delete value => List_Delete fuel list value;; mret ()
  | Op_DeleteHead => List_DeleteHead list;; mret ()
  | Op_DeleteTail => List_DeleteTail fuel list;; mret ()
  end.

Fixpoint exec (fuel : nat) (list : ptr) (ops : Datatypes.list op) : M T unit :=
  match ops with
  | [] => mret ()
  | o :: ops' => exec_op fuel list o;; exec fuel list ops'
  end.

(** [reachable h p q]: the allocated node [q] is reached from the pointer
    [p] by following [next] links. *)
Inductive reachable h : ptr → positive → Prop :=
| reachable_here (a : positive) n : h !! a = Some n → reachable h (Some a) a
| reachable_next (a b : positive) n :
    h !! a = Some n → reachable h (ListNode_next n) b → reachable h (Some a) b.

(** The structural invariants of the data model, for the header at [l]:
    [ps] are the nodes visited by following [next] from [head] until nil. *)
Definition invariants m l : Prop :=
  ∃ L cs,
    lists m !! l = Some L ∧
    (* following next-links from head ends in nil after the cells [cs] *)
    lseg (nodes m) (List_head L) None cs ∧
    (* which are exactly the nodes reachable from head, each once *)
    NoDup cs.*1 ∧
    (∀ a : positive, reachable (nodes m) (List_head L) a ↔ a ∈ cs.*1) ∧
    (* length counts them *)
    List_length L = Z.of_nat (length cs) ∧
    (* head is nil iff length is 0 iff tail is nil *)
    (List_head L = None ↔ List_length L = 0) ∧
    (List_length L = 0 ↔ List_tail L = None) ∧
    (* the last node visited is tail *)
    List_tail L = last cs.*1.

(** The text the specification gives for [String]:
    ["Length: <n>, Data: <v1> <v2> ... <vn>"], and ["Length: <n>, Data:"]
    when there is no element. *)
Definition render (n : Z) (vs : list string) : string :=
  match vs with
  | [] => "Length: " +:+ fmt_d n +:+ ", Data:"
  | _ => "Length: " +:+ fmt_d n +:+ ", Data: " +:+ String.concat " " vs
  end.

(** ** Threads sharing one list

    Goroutines that call the mutating methods on a shared handle.  Every
    access to the shared heap happens between [Lock] and the deferred
    [Unlock] of a call, so an execution is an interleaving of two kinds of
    steps per call: a thread acquires the mutex ([Lock] returns only when
    the mutex is free), and the thread that holds the mutex runs the rest
    of its call, up to and including the deferred [Unlock]. *)

(** A thread: the calls it still has to make, and whether it is inside
    the first of them, holding the mutex. *)
Record thread : Type := mkThread { todo : Datatypes.list op; holding : bool }.

(** The part of a call that runs under the write lock. *)
Definition critical_section (fuel : nat) (l : positive) (o : op) : M T unit :=
  match o with
  | Op_Insert value => Insert_locked l value;; mret ()
  | Op_Append value => Append_locked l value;; mret ()
  | Op_Delete value => Delete_locked fuel l value;; mret ()
  | Op_DeleteHead => DeleteHead_locked l;; mret ()
  | Op_DeleteTail => DeleteTail_locked fuel l;; mret ()
  end.

(** The next step of a thread, when it has one. *)
Definition thread_step (fuel : nat) (l : positive) (t : thread) : option (M T thread) :=
  match todo t with
  | [] => None
  | o :: ops =>
      Some (if holding t
            then defer (RWMutex_Unlock l) (critical_section fuel l o);;
                 mret (mkThread ops false)
            else RWMutex_Lock l;;
                 mret (mkThread (o :: ops) true))
  end.

(** The scheduler lets thread [i] take its step; there is no such step
    when the thread has finished, or is blocked, or crashes. *)
Definition sched_step (fuel : nat) (l : positive) (i : nat)
    (st : mem T * Datatypes.list thread) : option (mem T * Datatypes.list thread) :=
  match st.2 !! i with
  | None => None
  | Some t =>
      match thread_step fuel l t with
      | None => None
      | Some c =>
          match c st.1 with
          | Returns t' m' => Some (m', <[i := t']> st.2)
          | _ => None
          end
      end
  end.

Definition step (fuel : nat) (l : positive)
    (st st' : mem T * Datatypes.list thread) : Prop :=
  ∃ i, sched_step fuel l i st = Some st'.

Fixpoint run_schedule (fuel : nat) (l : positive) (schedule : Datatypes.list nat)
    (st : mem T * Datatypes.list thread) : option (mem T * Datatypes.list thread) :=
  match schedule with
  | [] => Some st
  | i :: schedule' =>
      match sched_step fuel l i st with
      | Some st' => run_schedule fuel l schedule' st'
      | None => None
      end
  end.

(** The body of a goroutine of [Test_Concurrency], for the values [xs] of
    its loop: [Append(x); Delete(x); Insert(x); Delete(x)] for each. *)
Definition worker (xs : Datatypes.list T) : Datatypes.list op :=
  x ← xs; [Op_Append x; Op_Delete x; Op_Insert x; Op_Delete x].

Definition spawn (progs : Datatypes.list (Datatypes.list T)) : Datatypes.list thread :=
  (λ xs, mkThread (worker xs) false) <$> progs.

(** A thread does not crash in the heap [m]: its step returns, or it is
    waiting for the mutex. *)
Definition thread_safe (fuel : nat) (l : positive) (m : mem T) (t : thread) : Prop :=
  match thread_step fuel l t with
  | None => True
  | Some c =>
      (∃ t' m', c m = Returns t' m') ∨ (holding t = false ∧ c m = Blocks)
  end.

(** The steps a thread has left: two per call, one less when it is
    inside a call. *)
Definition work_of (t : thread) : nat :=
  2 * length (todo t) - (if holding t then 1 else 0).

Definition work (ts : Datatypes.list thread) : nat := sum_list_with work_of ts.

(** What a thread has put in the list and not yet deleted: it is about
    to call [Delete(x)]. *)
Definition owes (t : thread) : Datatypes.list T :=
  match todo t with
  | Op_Delete x :: _ => [x]
  | _ => []
  end.

(** The programs a worker can have left. *)
Inductive phase : Datatypes.list op → Prop :=
| phase_loop xs : phase (worker xs)
| phase_appended x xs :
    phase (Op_Delete x :: Op_Insert x :: Op_Delete x :: worker xs)
| phase_deleted x xs : phase (Op_Insert x :: Op_Delete x :: worker xs)
| phase_inserted x xs : phase (Op_Delete x :: worker xs).

(** The invariant of the concurrent executions, for the sentinel [s]:
    the list is well formed, it holds the sentinel and what the threads
    owe, and the mutex is held exactly when one thread is inside a call. *)
Definition concurrent_inv (l : positive) (s : T)
    (st : mem T * Datatypes.list thread) : Prop :=
  ∃ cs mu,
    repr st.1 l cs (Z.of_nat (length cs)) mu ∧
    cs.*2 ≡ₚ s :: concat (owes <$> st.2) ∧
    Forall (λ t, phase (todo t) ∧ (holding t = true → todo t ≠ [])) st.2 ∧
    ((mu = RWMutex_free ∧ ∀ j t, st.2 !! j = Some t → holding t = false) ∨
     (mu = RWMutex_held ∧
      ∃ i t, st.2 !! i = Some t ∧ holding t = true ∧
             ∀ j t', st.2 !! j = Some t' → holding t' = true → j = i)).

End vocabulary.

(** * Vocabulary of the further properties *)

Section more_vocabulary.
Context {T : Type} `{!ListData T}.

(** [m'] keeps the nodes of [m]: every node allocated in [m] is allocated
    in [m'] and holds the same value (its [next] may differ). *)
Definition keeps_nodes (m m' : mem T) : Prop :=
  ∀ q n, nodes m !! q = Some n →
    ∃ n', nodes m' !! q = Some n' ∧ ListNode_value n' = ListNode_value n.

(** A computation that keeps the nodes whenever it returns. *)
Definition node_stable {A : Type} (c : M T A) : Prop :=
  ∀ m a m', c m = Returns a m' → keeps_nodes m m'.

(** ** The test helper [listAssert]

    [listAssert(t, list, values)] compares a list with the expected
    values and reports through [t *testing.T].  The state of [t] is the
    sequence of its reports: a failure of [t.Error]/[t.Errorf] or a line of
    [t.Log], each with the arguments of the call (the text that [testing]
    formats from them is not modelled). *)
Inductive report : Type :=
| Error_no_list
| Error_length (expected got : Z)
| Error_value (i : Z) (value : T)
| Error_tail_nil
| Error_tail (should_be is_ : option positive)
| Log_expected (values : Datatypes.list T)
| Log_got (text : string).

(** [t.Error] and [t.Errorf] mark the test as failed, [t.Log] does not. *)
Definition is_error (r : report) : bool :=
  match r with
  | Log_expected _ | Log_got _ => false
  | _ => true
  end.

(** The loop of [listAssert] (lines 33-42 of the test file).  Its guard is
    [currentNode != nil && i < len(values)]; [rest] is [values[i:]], so the
    guard's second half is [rest] being non-empty and [values[i]] is the
    head of [rest]. *)
Fixpoint listAssert_loop (rest : Datatypes.list T) (i : Z) (t : Datatypes.list report)
    (failed : bool) (currentParentNode currentNode : option positive)
  : M T (Datatypes.list report * bool * option positive) :=
  match currentNode, rest with
  | Some _, expected :: rest' =>
      '(value, _) ← ListNode_Value currentNode;
      let '(t, failed) :=
        if decide (value ≠ expected)
        then (t ++ [Error_value i value], true)
        else (t, failed) in
      next ← ListNode_Next currentNode;
      listAssert_loop rest' (int_wrap (i + 1)) t failed currentNode next
  | _, _ => mret (t, failed, currentParentNode)
  end.

(** The check of the tail (lines 43-49). *)
Definition listAssert_tail (t : Datatypes.list report) (list currentParentNode : option positive)
  : M T (Datatypes.list report) :=
  match currentParentNode with
  | Some _ =>
      tail ← List_Tail list;
      match tail with
      | None => mret (t ++ [Error_tail_nil])
      | Some _ =>
          tail ← List_Tail list;
          if decide (currentParentNode ≠ tail)
          then tail ← List_Tail list;
               mret (t ++ [Error_tail currentParentNode tail])
          else mret t
      end
  | None => mret t
  end.

(** The log of a failed comparison (lines 50-53). *)
Definition listAssert_log (fuel : nat) (t : Datatypes.list report) (list : option positive)
    (values : Datatypes.list T) (failed : bool) : M T (Datatypes.list report) :=
  if failed
  then text ← List_String fuel list;
       mret (t ++ [Log_expected values; Log_got text])
  else mret t.

(** [func listAssert[T ListData](t *testing.T, list *List[T], values []T)] *)
Definition listAssert (fuel : nat) (t : Datatypes.list report) (list : option positive)
    (values : Datatypes.list T) : M T (Datatypes.list report) :=
  match list with
  | None => mret (t ++ [Error_no_list])
  | Some _ =>
      n ← List_Length list;
      t ← (if decide (n ≠ Z.of_nat (length values))
           then n ← List_Length list;
                mret (t ++ [Error_length (Z.of_nat (length values)) n])
           else mret t);
      let failed := false in
      let i := 0 in
      currentNode ← List_Head list;
      '(t, failed, currentParentNode) ←
        listAssert_loop values i t failed None currentNode;
      t ← listAssert_tail t list currentParentNode;
      listAssert_log fuel t list values failed
  end.

End more_vocabulary.

(** * Concrete instances

    The list [1, 3, 4] of the test [Test_Delete] (after [Insert] of 4, 3, 2,
    1 and [Delete(2)]), laid out in the heap by hand. *)

Definition example_cells : list (positive * Z) :=
  [(3%positive, 1); (2%positive, 3); (1%positive, 4)].

Definition example_mem : mem Z :=
  mkMem
    (list_to_map
       [(1%positive, mkListNode 4 None);
        (2%positive, mkListNode 3 (Some 1%positive));
        (3%positive, mkListNode 1 (Some 2%positive))])
    {[ 1%positive := mkList (Some 3%positive) (Some 1%positive) 3 (Some RWMutex_free) ]}.

(** The calls of [Test_Delete], as a sequence. *)
Definition example_ops : list (@op Z) :=
  [Op_Insert 4; Op_Insert 3; Op_Insert 2; Op_Insert 1; Op_Delete 2;
   Op_DeleteHead; Op_DeleteTail; Op_Delete 3; Op_DeleteTail].

(** [Test_Concurrency] in small: the list [777] and two goroutines of two
    iterations each, scheduled call by call in turn. *)
Definition sentinel_mem : mem Z :=
  mkMem {[ 1%positive := mkListNode 777 None ]}
        {[ 1%positive := mkList (Some 1%positive) (Some 1%positive) 1 (Some RWMutex_free) ]}.

Definition example_progs : list (list Z) := [[0; 1]; [0; 1]].

Definition example_schedule : list nat :=
  _ ← seq 0 8; [0; 0; 1; 1]%nat.

(** A header that [NewList] did not make: the zero value, with a nil
    [mux]. *)
Definition zero_header_mem : mem Z :=
  mkMem ∅ {[ 1%positive := mkList None None 0 None ]}.

Ltac unfold_M :=
  unfold defer, set_head, set_tail, incr_length, decr_length, modify_List,
    get_List, get_ListNode, set_next, new_ListNode, deref_List,
    RWMutex_Lock, RWMutex_Unlock, RWMutex_RLock, RWMutex_RUnlock, with_mux,
    make_slice, panic, out_of_fuel,
    mbind, M_bind, mret, M_ret, with_lists, with_nodes in *.

(** Symbolic execution of a method body: resolve the heap lookups that
    the hypotheses or an earlier store determine. *)
Ltac mstep :=
  repeat (simpl;
    first
      [ rewrite lookup_insert_eq
      | match goal with
        | H : ?h !! ?k = Some _ |- context [?h !! ?k] => rewrite H
        | H : ?k ≠ ?k' |- context [<[?k:=_]> _ !! ?k'] =>
            rewrite (lookup_insert_ne _ k k') by exact H
        | H : ?k' ≠ ?k |- context [<[?k:=_]> _ !! ?k'] =>
            rewrite (lookup_insert_ne _ k k') by (symmetry; exact H)
        | H : ?x = Some _ |- context [match ?x with Some _ => _ | None => _ end] =>
            rewrite H
        | H : ?x = None |- context [match ?x with Some _ => _ | None => _ end] =>
            rewrite H
        end
      | rewrite decide_True by done
      | rewrite decide_False by done ]).

Ltac fields :=
  cbn [List_head List_tail List_length List_mux List_with_head
       List_with_tail List_with_length List_with_mux nodes lists
       with_lists with_nodes fst snd].

(** Running a body: after [mrun] the goal [body m = Returns ?a ?m'] is
    solved and [?m'] is the heap the body leaves. *)
Ltac mrun := unfold_M; mstep; reflexivity.

(** * Verification *)

(** ** Machine integers *)

Lemma int_wrap_id (z : Z) : int_min ≤ z ≤ int_max → int_wrap z = z.
Proof.
  unfold int_min, int_max, int_wrap. intros Hz.
  rewrite Z.mod_small; lia.
Qed.

Lemma int_wrap_overflow : int_wrap (int_max + 1) = int_min.
Proof. reflexivity. Qed.

(** ** Results of the monad *)

Section monad_facts.
Context {T : Type}.

Lemma bind_Returns {A B} (c : M T A) (f : A → M T B) (m m' : mem T) (a : A) :
  c m = Returns a m' → (c ≫= f) m = f a m'.
Proof. unfold mbind, M_bind. by intros ->. Qed.

Lemma bind_inv_Returns {A B} (c : M T A) (f : A → M T B) (m m'' : mem T) (b : B) :
  (c ≫= f) m = Returns b m'' →
  ∃ a m', c m = Returns a m' ∧ f a m' = Returns b m''.
Proof.
  unfold mbind, M_bind. destruct (c m) as [a m'| | |]; try done. eauto.
Qed.

End monad_facts.

(** ** List segments in the heap *)

Section segments.
Context {T : Type}.

Implicit Types (h : gmap positive (ListNode T)) (p q : ptr)
  (cs : list (positive * T)).

Lemma lseg_app h p q cs1 cs2 :
  lseg h p q (cs1 ++ cs2) ↔ ∃ r, lseg h p r cs1 ∧ lseg h r q cs2.
Proof.
  revert p. induction cs1 as [|c cs1 IH]; intros p; simpl.
  - split; [intros H; by exists p | by intros (r & -> & H)].
  - split.
    + intros (-> & nx & Hc & Hs). apply IH in Hs as (r & H1 & H2).
      exists r. eauto 10.
    + intros (r & (-> & nx & Hc & H1) & H2). split; [done|].
      exists nx. split; [done|]. apply IH. eauto.
Qed.

Lemma lseg_snoc h p q cs c :
  lseg h p q (cs ++ [c]) ↔
  ∃ r, lseg h p r cs ∧ r = Some c.1 ∧ h !! c.1 = Some (mkListNode c.2 q).
Proof.
  rewrite lseg_app. simpl. split.
  - intros (r & H1 & -> & nx & Hc & ->). eauto.
  - intros (r & H1 & -> & Hc). eauto 10.
Qed.

(** A chain that ends in nil is determined by its first pointer. *)
Lemma lseg_nil_det h p cs1 cs2 :
  lseg h p None cs1 → lseg h p None cs2 → cs1 = cs2.
Proof.
  revert p cs2. induction cs1 as [|[a v] cs1 IH]; intros p [|[b w] cs2]; simpl.
  - done.
  - by intros -> (? & _).
  - by intros (-> & _) ?.
  - intros (-> & nx & Ha & H1) (Hb & nx' & Hb' & H2).
    simplify_eq. f_equal. eauto.
Qed.

(** Hence no cell occurs twice: the chain has no cycle. *)
Lemma lseg_nil_NoDup h p cs : lseg h p None cs → NoDup cs.*1.
Proof.
  revert p. induction cs as [|[a v] cs IH]; intros p; simpl.
  - constructor.
  - intros (-> & nx & Ha & Hs). constructor; [|by eapply IH].
    intros Hin. apply list_elem_of_fmap in Hin as ([a' w] & Heq & Hin).
    simpl in Heq. subst a'.
    apply list_elem_of_split in Hin as (cs1 & cs2 & ->).
    pose proof Hs as Hs'.
    apply lseg_app in Hs' as (r & _ & Hr). simpl in Hr.
    destruct Hr as (-> & nx' & Ha' & Hr). simplify_eq.
    pose proof (lseg_nil_det _ _ _ _ Hs Hr) as Heq.
    apply (f_equal length) in Heq. rewrite length_app in Heq. simpl in Heq. lia.
Qed.

(** Frame: a segment only depends on its own cells. *)
Lemma lseg_frame h h' p q cs :
  (∀ a, a ∈ cs.*1 → h' !! a = h !! a) → lseg h p q cs → lseg h' p q cs.
Proof.
  revert p. induction cs as [|[a v] cs IH]; intros p Hfr; simpl; [done|].
  intros (-> & nx & Ha & Hs). split; [done|]. exists nx. split.
  - rewrite Hfr; [done|]. simpl. left.
  - apply IH; [|done]. intros b Hb. apply Hfr. simpl. by right.
Qed.

Lemma lseg_insert_fresh h p q cs a n :
  a ∉ cs.*1 → lseg h p q cs → lseg (<[a := n]> h) p q cs.
Proof.
  intros Ha. apply lseg_frame. intros b Hb.
  rewrite lookup_insert_ne; [done|]. by intros ->.
Qed.

Lemma lseg_allocated h p q cs a : lseg h p q cs → a ∈ cs.*1 → a ∈ dom h.
Proof.
  revert p. induction cs as [|[b v] cs IH]; intros p; simpl.
  - intros _ Hin. by apply elem_of_nil in Hin.
  - intros (-> & nx & Hb & Hs) Hin. apply elem_of_cons in Hin as [->|Hin].
    + apply elem_of_dom. eauto.
    + eauto.
Qed.

Lemma lseg_last h p cs : lseg h p None cs → cs = [] ↔ p = None.
Proof.
  destruct cs as [|c cs]; simpl; [done|].
  intros (-> & _). split; done.
Qed.

End segments.

(** ** The representation invariant *)

Section specs.
Context {T : Type} `{!ListData T}.

Implicit Types (m : mem T) (l : positive) (cs : list (positive * T))
  (mu : RWMutex).

Lemma fresh_node_not_in (h : gmap positive (ListNode T)) p q cs :
  lseg h p q cs → fresh (dom h) ∉ cs.*1.
Proof.
  intros Hseg Hin. apply (is_fresh (dom h)). by eapply lseg_allocated.
Qed.

Lemma Insert_locked_spec m l cs n mu v :
  repr m l cs n mu →
  ∃ p m', Insert_locked l v m = Returns None m' ∧
          (p ∉ dom (nodes m)) ∧
          repr m' l ((p, v) :: cs) (int_wrap (n + 1)) mu.
Proof.
  intros (L & Hl & Hseg & Htl & Hlen & Hmu).
  destruct m as [h ls]. simpl in *.
  pose proof (fresh_node_not_in _ _ _ _ Hseg) as Hfr.
  exists (fresh (dom h)).
  destruct (List_tail L) as [t|] eqn:Ht.
  - eexists. split; [unfold Insert_locked; mrun|].
    split; [apply is_fresh|].
    eexists. split_and!; fields.
    + apply lookup_insert_eq.
    + split; [done|]. eexists. split; [apply lookup_insert_eq|].
      by apply lseg_insert_fresh.
    + by rewrite fmap_cons, last_cons, <- Htl.
    + by rewrite Hlen.
    + done.
  - eexists. split; [unfold Insert_locked; mrun|].
    split; [apply is_fresh|].
    eexists. split_and!; fields.
    + apply lookup_insert_eq.
    + split; [done|]. eexists. split; [apply lookup_insert_eq|].
      by apply lseg_insert_fresh.
    + by rewrite fmap_cons, last_cons, <- Htl.
    + by rewrite Hlen.
    + done.
Qed.

Lemma last_fst_inv cs (t : positive) :
  last cs.*1 = Some t → ∃ cs0 vt, cs = cs0 ++ [(t, vt)].
Proof.
  destruct cs as [|[a v] cs _] using rev_ind; [done|].
  rewrite fmap_app. simpl. rewrite last_snoc. intros [= <-]. eauto.
Qed.

Lemma last_fst_None cs : last cs.*1 = None → cs = [].
Proof. intros H%last_None. by apply fmap_nil_inv in H. Qed.

Lemma Append_locked_spec m l cs n mu v :
  repr m l cs n mu →
  ∃ p m', Append_locked l v m = Returns None m' ∧
          (p ∉ dom (nodes m)) ∧
          repr m' l (cs ++ [(p, v)]) (int_wrap (n + 1)) mu.
Proof.
  intros (L & Hl & Hseg & Htl & Hlen & Hmu).
  destruct m as [h ls]. simpl in *.
  pose proof (fresh_node_not_in _ _ _ _ Hseg) as Hfr.
  pose proof (lseg_nil_NoDup _ _ _ Hseg) as Hnd.
  exists (fresh (dom h)).
  destruct (List_tail L) as [t|] eqn:Ht.
  - symmetry in Htl. apply last_fst_inv in Htl as (cs0 & vt & ->).
    apply lseg_snoc in Hseg as (r & Hseg & -> & Hlt). simpl in Hlt.
    rewrite fmap_app in Hfr, Hnd. simpl in Hfr, Hnd.
    apply NoDup_app in Hnd as (_ & Hnd & _).
    assert (fresh (dom h) ≠ t) as Hne.
    { intros Heq. apply Hfr. rewrite Heq. set_solver. }
    eexists. split; [unfold Append_locked; mrun|].
    split; [apply is_fresh|].
    eexists. split_and!; fields.
    + apply lookup_insert_eq.
    + apply lseg_snoc. exists (Some (fresh (dom h))). split_and!; [|done|].
      * apply lseg_snoc. exists (Some t). split_and!; [|done|].
        -- apply lseg_insert_fresh; [set_solver|].
           apply lseg_insert_fresh; [set_solver|done].
        -- apply lookup_insert_eq.
      * simpl. rewrite lookup_insert_ne by done. apply lookup_insert_eq.
    + rewrite fmap_app. simpl. by rewrite last_snoc.
    + by rewrite Hlen.
    + done.
  - symmetry in Htl. apply last_fst_None in Htl as ->. simpl in Hseg.
    eexists. split; [unfold Append_locked; mrun|].
    split; [apply is_fresh|].
    eexists. split_and!; fields.
    + apply lookup_insert_eq.
    + simpl. split; [done|]. eexists. split; [apply lookup_insert_eq|done].
    + done.
    + by rewrite Hlen.
    + done.
Qed.

(** *** [findParent] *)

(** No cell of the chain holds [x]: the loop reaches nil. *)
Lemma findParent_loop_absent m (x : T) cs fuel lastNode cur :
  lseg (nodes m) cur None cs → x ∉ cs.*2 → (length cs < fuel)%nat →
  findParent_loop fuel x lastNode cur m = Returns (None, None) m.
Proof.
  revert fuel lastNode cur.
  induction cs as [|[a v] cs IH]; intros fuel lastNode cur;
    rewrite ?fmap_cons; cbn [lseg app fst snd length].
  - by intros -> _ _; destruct fuel.
  - intros (-> & nx & Ha & Hs) Hx%not_elem_of_cons Hf.
    destruct fuel as [|fuel]; [lia|].
    cbn [findParent_loop]. unfold_M. rewrite Ha. cbn [ListNode_value ListNode_next].
    rewrite decide_False by naive_solver.
    apply IH; [done|naive_solver|lia].
Qed.

(** The first cell holding [x] is found, with the cell before it (or the
    initial [lastNode] when it is the first of the chain). *)
Lemma findParent_loop_found m (x : T) cs1 f cs2 fuel lastNode cur :
  lseg (nodes m) cur None (cs1 ++ (f, x) :: cs2) → x ∉ cs1.*2 →
  (length cs1 < fuel)%nat →
  findParent_loop fuel x lastNode cur m
  = Returns (from_option Some lastNode (last cs1.*1), Some f) m.
Proof.
  revert fuel lastNode cur.
  induction cs1 as [|[a v] cs1 IH]; intros fuel lastNode cur;
    rewrite ?fmap_cons; cbn [lseg app fst snd length].
  - intros (-> & nx & Ha & Hs) _ Hf.
    destruct fuel as [|fuel]; [lia|].
    cbn [findParent_loop]. unfold_M. rewrite Ha. cbn [ListNode_value ListNode_next].
    by rewrite decide_True.
  - intros (-> & nx & Ha & Hs) Hx%not_elem_of_cons Hf.
    destruct fuel as [|fuel]; [lia|].
    cbn [findParent_loop]. unfold_M. rewrite Ha. cbn [ListNode_value ListNode_next].
    rewrite decide_False by naive_solver.
    rewrite (IH fuel (Some a) nx); [|done|naive_solver|lia].
    rewrite last_cons. by destruct (last cs1.*1).
Qed.

Lemma findParent_absent m l cs n mu (x : T) fuel :
  repr m l cs n mu → x ∉ cs.*2 → (length cs < fuel)%nat →
  List_findParent fuel (Some l) x m = Returns (None, None) m.
Proof.
  intros (L & Hl & Hseg & _) Hx Hf. unfold List_findParent. unfold_M.
  rewrite Hl. by apply findParent_loop_absent with cs.
Qed.

Lemma findParent_found m l cs1 f cs2 n mu (x : T) fuel :
  repr m l (cs1 ++ (f, x) :: cs2) n mu → x ∉ cs1.*2 →
  (length cs1 < fuel)%nat →
  List_findParent fuel (Some l) x m = Returns (last cs1.*1, Some f) m.
Proof.
  intros (L & Hl & Hseg & _) Hx Hf. unfold List_findParent. unfold_M.
  rewrite Hl. rewrite (findParent_loop_found _ _ cs1 f cs2); [|done..].
  by destruct (last cs1.*1).
Qed.

(** *** [Delete] *)

Lemma last_cons_is_head (f : positive) (ps : list positive) :
  f ∉ ps → last (f :: ps) = Some f ↔ ps = [].
Proof.
  intros Hf. split; [|by intros ->].
  rewrite last_cons. destruct (last ps) as [q|] eqn:Hq.
  - intros [= ->]. apply last_Some_elem_of in Hq. done.
  - intros _. by apply last_None.
Qed.

Lemma Delete_locked_absent m l cs n mu (x : T) fuel :
  repr m l cs n mu → x ∉ cs.*2 → (length cs < fuel)%nat →
  Delete_locked fuel l x m = Returns false m.
Proof.
  intros Hr Hx Hf. unfold Delete_locked.
  by rewrite (bind_Returns _ _ _ _ _ (findParent_absent _ _ _ _ _ _ _ Hr Hx Hf)).
Qed.

Lemma Delete_locked_found m l cs1 f cs2 n mu (x : T) fuel :
  repr m l (cs1 ++ (f, x) :: cs2) n mu → x ∉ cs1.*2 →
  (length cs1 < fuel)%nat →
  ∃ m', Delete_locked fuel l x m = Returns true m' ∧
        repr m' l (cs1 ++ cs2) (int_wrap (n - 1)) mu.
Proof.
  intros Hr Hx Hf. unfold Delete_locked.
  rewrite (bind_Returns _ _ _ _ _ (findParent_found _ _ _ _ _ _ _ _ _ Hr Hx Hf)).
  destruct Hr as (L & Hl & Hseg & Htl & Hlen & Hmu).
  destruct m as [h ls]. cbn [nodes lists] in *.
  pose proof (lseg_nil_NoDup _ _ _ Hseg) as Hnd.
  rewrite fmap_app, fmap_cons in Hnd, Htl. cbn [fst] in Hnd, Htl.
  apply NoDup_app in Hnd as (Hnd1 & Hnd12 & Hnd2).
  apply NoDup_cons in Hnd2 as (Hf2 & Hnd2).
  assert (List_tail L = Some f ↔ cs2 = []) as Htlf.
  { rewrite Htl. rewrite last_app_cons. rewrite last_cons_is_head by done.
    split; [by intros ?%fmap_nil_inv | by intros ->]. }
  apply lseg_app in Hseg as (r & Hseg1 & Hseg2).
  cbn [lseg fst snd] in Hseg2. destruct Hseg2 as (-> & nx & Hlf & Hseg2).
  destruct cs1 as [|[p vp] cs0 _] using rev_ind.
  - (* the found node is the head *)
    cbn [lseg] in Hseg1. cbn [app fmap list_fmap last].
    destruct cs2 as [|c2 cs2].
    + assert (List_tail L = Some f) as Htf by by apply Htlf.
      eexists. split; [mrun|].
      eexists. split; [apply lookup_insert_eq|]. fields. split_and!; [..|done].
      * cbn [lseg] in Hseg2. by subst nx.
      * done.
      * by rewrite Hlen.
    + assert (List_tail L ≠ Some f) as Htf by (by rewrite Htlf).
      eexists. split; [mrun|].
      eexists. split; [apply lookup_insert_eq|]. fields. split_and!; [done|..|done].
      * rewrite Htl. reflexivity.
      * by rewrite Hlen.
  - (* the found node has a parent [p] *)
    clear Hx.
    apply lseg_snoc in Hseg1 as (r & Hseg1 & Hr & Hlp).
    rewrite fmap_app in Hnd1, Hnd12. cbn [fmap list_fmap] in Hnd1, Hnd12.
    cbn [fst snd] in *. subst r.
    assert (p ≠ f) as Hpf.
    { intros ->. eapply (Hnd12 f); set_solver. }
    assert (List_head L ≠ Some f) as Hhf.
    { intros Heq. destruct cs0 as [|[a va] cs0].
      - cbn [lseg] in Hseg1. congruence.
      - cbn [lseg fst] in Hseg1. destruct Hseg1 as (Ha & _).
        rewrite Ha in Heq. injection Heq as ->. eapply (Hnd12 f); set_solver. }
    rewrite fmap_app. cbn [fmap list_fmap]. rewrite last_snoc.
    assert (lseg (<[p:={| ListNode_value := vp; ListNode_next := nx |}]> h)
              (List_head L) None ((cs0 ++ [(p, vp)]) ++ cs2)) as Hseg'.
    { apply lseg_app. exists nx. split.
      - apply lseg_snoc. exists (Some p). split_and!; [|done|apply lookup_insert_eq].
        apply lseg_insert_fresh; [|done].
        apply NoDup_app in Hnd1 as (_ & Hnd1 & _). intros Hin. eapply Hnd1; set_solver.
      - apply lseg_insert_fresh; [|done]. intros Hin. eapply (Hnd12 p); set_solver. }
    destruct cs2 as [|c2 cs2].
    + assert (List_tail L = Some f) as Htf by by apply Htlf.
      eexists. split; [mrun|].
      eexists. split; [apply lookup_insert_eq|]. fields. split_and!; [done|..|done].
      * rewrite app_nil_r, fmap_app. cbn [fmap list_fmap]. by rewrite last_snoc.
      * by rewrite Hlen.
    + assert (List_tail L ≠ Some f) as Htf by (by rewrite Htlf).
      eexists. split; [mrun|].
      eexists. split; [apply lookup_insert_eq|]. fields. split_and!; [done|..|done].
      * rewrite Htl. rewrite !fmap_app, !fmap_cons, !last_app_cons.
        reflexivity.
      * by rewrite Hlen.
Qed.

(** *** [DeleteHead] *)

Lemma DeleteHead_locked_empty m l n mu :
  repr m l [] n mu →
  DeleteHead_locked l m = Returns (ListData_zero, false) m.
Proof.
  intros (L & Hl & Hseg & _). cbn [lseg] in Hseg.
  unfold DeleteHead_locked. mrun.
Qed.

Lemma DeleteHead_locked_cons m l a v cs n mu :
  repr m l ((a, v) :: cs) n mu →
  ∃ m', DeleteHead_locked l m = Returns (v, true) m' ∧
        repr m' l cs (int_wrap (n - 1)) mu.
Proof.
  intros (L & Hl & Hseg & Htl & Hlen & Hmu).
  destruct m as [h ls]. cbn [nodes lists lseg fst snd] in *.
  destruct Hseg as (Hhd & nx & Ha & Hseg).
  destruct cs as [|[b w] cs].
  - cbn [lseg] in Hseg. subst nx.
    eexists. split; [unfold DeleteHead_locked; mrun|].
    eexists. split; [apply lookup_insert_eq|]. fields.
    split_and!; [done..|by rewrite Hlen|done].
  - pose proof Hseg as Hseg'. cbn [lseg fst] in Hseg'. destruct Hseg' as (-> & _).
    eexists. split; [unfold DeleteHead_locked; mrun|].
    eexists. split; [apply lookup_insert_eq|]. fields.
    split_and!; [done| |by rewrite Hlen|done].
    rewrite Htl. reflexivity.
Qed.

(** *** [DeleteTail] *)

(** The scan for the parent of the tail [t]: over a chain that ends with
    the cell [t] it returns the cell before [t], or the initial [parent]
    when [t] is the first cell of the chain. *)
Lemma DeleteTail_loop_spec m l L cs0 t (vt : T) fuel parent node :
  lists m !! l = Some L → List_tail L = Some t →
  lseg (nodes m) node None (cs0 ++ [(t, vt)]) →
  (length cs0 + 1 < fuel)%nat →
  DeleteTail_loop fuel l parent node m
  = Returns (from_option Some parent (last cs0.*1)) m.
Proof.
  intros Hl Ht. revert fuel parent node.
  induction cs0 as [|[a va] cs0 IH]; intros fuel parent node Hseg Hf.
  - cbn [app lseg fst snd] in Hseg. destruct Hseg as (-> & nx & Ha & ->).
    destruct fuel as [|fuel]; [simpl in Hf; lia|].
    cbn [DeleteTail_loop]. unfold_M. rewrite Ha, Hl.
    cbn [ListNode_next]. rewrite Ht, Ha. cbn [ListNode_next].
    rewrite decide_False by done. by destruct fuel.
  - pose proof (lseg_nil_NoDup _ _ _ Hseg) as Hnd.
    cbn [app lseg fst snd] in Hseg. destruct Hseg as (-> & nx & Ha & Hseg).
    destruct fuel as [|fuel]; [lia|]. cbn [length] in Hf.
    cbn [DeleteTail_loop]. unfold_M. rewrite Ha, Hl.
    cbn [ListNode_next]. rewrite Ht, Ha. cbn [ListNode_next].
    rewrite fmap_cons, last_cons. cbn [fst].
    destruct cs0 as [|[b vb] cs0].
    + cbn [app lseg fst] in Hseg. destruct Hseg as (-> & Hseg).
      rewrite decide_True by done.
      rewrite (IH fuel (Some a) (Some t)); [done| |lia].
      cbn [app lseg fst]. done.
    + pose proof Hseg as Hseg'.
      cbn [app lseg fst] in Hseg'. destruct Hseg' as (-> & _).
      rewrite decide_False.
      * rewrite (IH fuel parent (Some b)); [|done|lia].
        rewrite fmap_cons, last_cons. by destruct (last cs0.*1).
      * intros [= ->]. rewrite fmap_app in Hnd. simpl in Hnd.
        apply NoDup_cons in Hnd as (_ & Hnd).
        apply NoDup_cons in Hnd as (Hnd & _). apply Hnd.
        apply elem_of_app. right. left.
Qed.

Lemma DeleteTail_locked_empty m l n mu fuel :
  repr m l [] n mu →
  DeleteTail_locked fuel l m = Returns (ListData_zero, false) m.
Proof.
  intros (L & Hl & _ & Htl & _). cbn [fmap list_fmap last] in Htl.
  unfold DeleteTail_locked. mrun.
Qed.

Lemma DeleteTail_locked_snoc m l cs0 t v n mu fuel :
  repr m l (cs0 ++ [(t, v)]) n mu → (length cs0 + 1 < fuel)%nat →
  ∃ m', DeleteTail_locked fuel l m = Returns (v, true) m' ∧
        repr m' l cs0 (int_wrap (n - 1)) mu.
Proof.
  intros (L & Hl & Hseg & Htl & Hlen & Hmu) Hf.
  rewrite fmap_app in Htl. cbn [fmap list_fmap fst] in Htl. rewrite last_snoc in Htl.
  pose proof (DeleteTail_loop_spec m l L cs0 t v fuel None (List_head L) Hl Htl Hseg Hf)
    as Hloop.
  pose proof (lseg_nil_NoDup _ _ _ Hseg) as Hnd.
  rewrite fmap_app in Hnd. cbn [fmap list_fmap fst] in Hnd.
  apply NoDup_app in Hnd as (Hnd0 & Hndt & _).
  apply lseg_snoc in Hseg as (r & Hseg & Hr & Hlt). cbn [fst snd] in *. subst r.
  unfold DeleteTail_locked. unfold_M. rewrite Hl, Htl, Hlt, Hl, Hloop.
  cbn [ListNode_value].
  destruct m as [h ls]. cbn [nodes lists] in *.
  destruct cs0 as [|[p vp] cs0 _] using rev_ind.
  - cbn [fmap list_fmap last from_option].
    eexists. split; [mrun|].
    eexists. split; [apply lookup_insert_eq|]. fields.
    split_and!; [done..|by rewrite Hlen|done].
  - rewrite fmap_app. cbn [fmap list_fmap fst]. rewrite last_snoc.
    cbn [from_option].
    apply lseg_snoc in Hseg as (r & Hseg & Hr & Hlp). cbn [fst snd] in *. subst r.
    rewrite fmap_app in Hnd0. cbn [fmap list_fmap fst] in Hnd0.
    apply NoDup_app in Hnd0 as (_ & Hndp & _).
    eexists. split; [mrun|].
    eexists. split; [apply lookup_insert_eq|]. fields.
    split_and!; [| |by rewrite Hlen|done].
    + apply lseg_snoc. exists (Some p). split_and!; [|done|apply lookup_insert_eq].
      apply lseg_insert_fresh; [|done]. intros Hin. eapply Hndp; set_solver.
    + rewrite fmap_app. cbn [fmap list_fmap fst]. by rewrite last_snoc.
Qed.

(** *** The loop of [String] *)

Lemma String_loop_spec m cs fuel cur (acc : list T) :
  lseg (nodes m) cur None cs → (length cs < fuel)%nat →
  String_loop fuel cur acc m = Returns (acc ++ cs.*2) m.
Proof.
  revert fuel cur acc.
  induction cs as [|[a v] cs IH]; intros fuel cur acc;
    rewrite ?fmap_cons; cbn [lseg fst snd length].
  - intros -> _. destruct fuel; by rewrite app_nil_r.
  - intros (-> & nx & Ha & Hseg) Hf. destruct fuel as [|fuel]; [lia|].
    cbn [String_loop]. unfold_M. rewrite Ha. cbn [ListNode_value ListNode_next].
    rewrite Ha. cbn [ListNode_value ListNode_next].
    rewrite (IH fuel nx); [|done|lia]. by rewrite <- app_assoc.
Qed.

(** *** The lock *)

Lemma repr_set_mux m l cs n mu mu' :
  repr m l cs n mu → repr (set_mux mu' l m) l cs n mu'.
Proof.
  intros (L & Hl & Hseg & Htl & Hlen & Hmu). unfold set_mux. rewrite Hl.
  eexists. split_and!; fields; [apply lookup_insert_eq|done..].
Qed.

Lemma set_mux_nodes m l mu : nodes (set_mux mu l m) = nodes m.
Proof. unfold set_mux. by destruct (lists m !! l). Qed.

Lemma set_mux_set_mux m l mu mu' :
  set_mux mu l (set_mux mu' l m) = set_mux mu l m.
Proof.
  unfold set_mux. destruct (lists m !! l) as [L|] eqn:Hl.
  - fields. rewrite lookup_insert_eq. unfold with_lists. fields.
    by rewrite insert_insert_eq.
  - by rewrite Hl.
Qed.

Lemma set_mux_id m l cs n mu : repr m l cs n mu → set_mux mu l m = m.
Proof.
  intros (L & Hl & _ & _ & _ & Hmu). unfold set_mux. rewrite Hl.
  destruct m as [h ls], L as [hd tl len mx]. unfold with_lists, List_with_mux.
  simpl in *. subst mx. by rewrite insert_id.
Qed.

Lemma Lock_spec m l cs n :
  repr m l cs n RWMutex_free →
  RWMutex_Lock l m = Returns () (set_mux RWMutex_held l m).
Proof.
  intros (L & Hl & _ & _ & _ & Hmu). unfold set_mux. rewrite Hl. mrun.
Qed.

Lemma Unlock_spec m l cs n :
  repr m l cs n RWMutex_held →
  RWMutex_Unlock l m = Returns () (set_mux RWMutex_free l m).
Proof.
  intros (L & Hl & _ & _ & _ & Hmu). unfold set_mux. rewrite Hl. mrun.
Qed.

Lemma RLock_spec m l cs n :
  repr m l cs n RWMutex_free →
  RWMutex_RLock l m = Returns () (set_mux RWMutex_read l m).
Proof.
  intros (L & Hl & _ & _ & _ & Hmu). unfold set_mux. rewrite Hl. mrun.
Qed.

Lemma RUnlock_spec m l cs n :
  repr m l cs n RWMutex_read →
  RWMutex_RUnlock l m = Returns () (set_mux RWMutex_free l m).
Proof.
  intros (L & Hl & _ & _ & _ & Hmu). unfold set_mux. rewrite Hl. mrun.
Qed.

(** A body run between [Lock] and the deferred [Unlock]. *)
Lemma write_locked_spec {A} (body : M T A) m l cs n a m1 cs' n' :
  repr m l cs n RWMutex_free →
  body (set_mux RWMutex_held l m) = Returns a m1 →
  repr m1 l cs' n' RWMutex_held →
  (RWMutex_Lock l;; defer (RWMutex_Unlock l) body) m
  = Returns a (set_mux RWMutex_free l m1).
Proof.
  intros Hr Hb Hr1.
  rewrite (bind_Returns _ _ _ _ _ (Lock_spec _ _ _ _ Hr)).
  unfold defer. rewrite (bind_Returns _ _ _ _ _ Hb).
  by rewrite (bind_Returns _ _ _ _ _ (Unlock_spec _ _ _ _ Hr1)).
Qed.

(** A body run between [RLock] and the deferred [RUnlock]. *)
Lemma read_locked_spec {A} (body : M T A) m l cs n a m1 cs' n' :
  repr m l cs n RWMutex_free →
  body (set_mux RWMutex_read l m) = Returns a m1 →
  repr m1 l cs' n' RWMutex_read →
  (RWMutex_RLock l;; defer (RWMutex_RUnlock l) body) m
  = Returns a (set_mux RWMutex_free l m1).
Proof.
  intros Hr Hb Hr1.
  rewrite (bind_Returns _ _ _ _ _ (RLock_spec _ _ _ _ Hr)).
  unfold defer. rewrite (bind_Returns _ _ _ _ _ Hb).
  by rewrite (bind_Returns _ _ _ _ _ (RUnlock_spec _ _ _ _ Hr1)).
Qed.

(** A body that leaves the heap as it found it. *)
Lemma locked_unchanged m l cs n mu :
  repr m l cs n RWMutex_free →
  set_mux RWMutex_free l (set_mux mu l m) = m.
Proof. intros Hr. rewrite set_mux_set_mux. by eapply set_mux_id. Qed.

(** ** The public methods on a list between two calls *)

Lemma Insert_repr m l cs n v :
  repr m l cs n RWMutex_free →
  ∃ p m', List_Insert (Some l) v m = Returns None m' ∧
          repr m' l ((p, v) :: cs) (int_wrap (n + 1)) RWMutex_free.
Proof.
  intros Hr.
  destruct (Insert_locked_spec (set_mux RWMutex_held l m) l cs n RWMutex_held v)
    as (p & m1 & Hb & _ & Hr1); [by eapply repr_set_mux|].
  exists p, (set_mux RWMutex_free l m1). split.
  - by eapply write_locked_spec.
  - by eapply repr_set_mux.
Qed.

Lemma Append_repr m l cs n v :
  repr m l cs n RWMutex_free →
  ∃ p m', List_Append (Some l) v m = Returns None m' ∧
          repr m' l (cs ++ [(p, v)]) (int_wrap (n + 1)) RWMutex_free.
Proof.
  intros Hr.
  destruct (Append_locked_spec (set_mux RWMutex_held l m) l cs n RWMutex_held v)
    as (p & m1 & Hb & _ & Hr1); [by eapply repr_set_mux|].
  exists p, (set_mux RWMutex_free l m1). split.
  - by eapply write_locked_spec.
  - by eapply repr_set_mux.
Qed.

Lemma Delete_absent m l cs n (x : T) fuel :
  repr m l cs n RWMutex_free → x ∉ cs.*2 → (length cs < fuel)%nat →
  List_Delete fuel (Some l) x m = Returns false m.
Proof.
  intros Hr Hx Hf.
  pose proof (repr_set_mux _ _ _ _ _ RWMutex_held Hr) as Hr'.
  unfold List_Delete, deref_List. rewrite (bind_Returns _ _ m m l) by done.
  erewrite write_locked_spec; [|done|by eapply Delete_locked_absent|done].
  by erewrite locked_unchanged.
Qed.

Lemma Delete_found m l cs1 f cs2 n (x : T) fuel :
  repr m l (cs1 ++ (f, x) :: cs2) n RWMutex_free → x ∉ cs1.*2 →
  (length cs1 < fuel)%nat →
  ∃ m', List_Delete fuel (Some l) x m = Returns true m' ∧
        repr m' l (cs1 ++ cs2) (int_wrap (n - 1)) RWMutex_free.
Proof.
  intros Hr Hx Hf.
  pose proof (repr_set_mux _ _ _ _ _ RWMutex_held Hr) as Hr'.
  destruct (Delete_locked_found _ _ _ _ _ _ _ _ _ Hr' Hx Hf) as (m1 & Hb & Hr1).
  exists (set_mux RWMutex_free l m1). split.
  - unfold List_Delete, deref_List. rewrite (bind_Returns _ _ m m l) by done.
    by eapply write_locked_spec.
  - by eapply repr_set_mux.
Qed.

Lemma DeleteHead_empty m l n :
  repr m l [] n RWMutex_free →
  List_DeleteHead (Some l) m = Returns (ListData_zero, false) m.
Proof.
  intros Hr.
  pose proof (repr_set_mux _ _ _ _ _ RWMutex_held Hr) as Hr'.
  unfold List_DeleteHead, deref_List. rewrite (bind_Returns _ _ m m l) by done.
  erewrite write_locked_spec; [|done|by eapply DeleteHead_locked_empty|done].
  by erewrite locked_unchanged.
Qed.

Lemma DeleteHead_cons m l a v cs n :
  repr m l ((a, v) :: cs) n RWMutex_free →
  ∃ m', List_DeleteHead (Some l) m = Returns (v, true) m' ∧
        repr m' l cs (int_wrap (n - 1)) RWMutex_free.
Proof.
  intros Hr.
  pose proof (repr_set_mux _ _ _ _ _ RWMutex_held Hr) as Hr'.
  destruct (DeleteHead_locked_cons _ _ _ _ _ _ _ Hr') as (m1 & Hb & Hr1).
  exists (set_mux RWMutex_free l m1). split.
  - unfold List_DeleteHead, deref_List. rewrite (bind_Returns _ _ m m l) by done.
    by eapply write_locked_spec.
  - by eapply repr_set_mux.
Qed.

Lemma DeleteTail_empty m l n fuel :
  repr m l [] n RWMutex_free →
  List_DeleteTail fuel (Some l) m = Returns (ListData_zero, false) m.
Proof.
  intros Hr.
  pose proof (repr_set_mux _ _ _ _ _ RWMutex_held Hr) as Hr'.
  unfold List_DeleteTail, deref_List. rewrite (bind_Returns _ _ m m l) by done.
  erewrite write_locked_spec; [|done|by eapply DeleteTail_locked_empty|done].
  by erewrite locked_unchanged.
Qed.

Lemma DeleteTail_snoc m l cs0 t v n fuel :
  repr m l (cs0 ++ [(t, v)]) n RWMutex_free → (length cs0 + 1 < fuel)%nat →
  ∃ m', List_DeleteTail fuel (Some l) m = Returns (v, true) m' ∧
        repr m' l cs0 (int_wrap (n - 1)) RWMutex_free.
Proof.
  intros Hr Hf.
  pose proof (repr_set_mux _ _ _ _ _ RWMutex_held Hr) as Hr'.
  destruct (DeleteTail_locked_snoc _ _ _ _ _ _ _ _ Hr' Hf) as (m1 & Hb & Hr1).
  exists (set_mux RWMutex_free l m1). split.
  - unfold List_DeleteTail, deref_List. rewrite (bind_Returns _ _ m m l) by done.
    by eapply write_locked_spec.
  - by eapply repr_set_mux.
Qed.

Lemma Find_absent m l cs n (x : T) fuel :
  repr m l cs n RWMutex_free → x ∉ cs.*2 → (length cs < fuel)%nat →
  List_Find fuel (Some l) x m = Returns None m.
Proof.
  intros Hr Hx Hf.
  pose proof (repr_set_mux _ _ _ _ _ RWMutex_read Hr) as Hr'.
  unfold List_Find, deref_List. rewrite (bind_Returns _ _ m m l) by done.
  erewrite read_locked_spec; [|done| |done].
  - by erewrite locked_unchanged.
  - by rewrite (bind_Returns _ _ _ _ _ (findParent_absent _ _ _ _ _ _ _ Hr' Hx Hf)).
Qed.

Lemma Find_found m l cs1 f cs2 n (x : T) fuel :
  repr m l (cs1 ++ (f, x) :: cs2) n RWMutex_free → x ∉ cs1.*2 →
  (length cs1 < fuel)%nat →
  List_Find fuel (Some l) x m = Returns (Some f) m.
Proof.
  intros Hr Hx Hf.
  pose proof (repr_set_mux _ _ _ _ _ RWMutex_read Hr) as Hr'.
  unfold List_Find, deref_List. rewrite (bind_Returns _ _ m m l) by done.
  erewrite read_locked_spec; [|done| |done].
  - by erewrite locked_unchanged.
  - by rewrite (bind_Returns _ _ _ _ _ (findParent_found _ _ _ _ _ _ _ _ _ Hr' Hx Hf)).
Qed.

(** ** Observing a list *)

Lemma Length_repr m l cs n mu :
  repr m l cs n mu → List_Length (Some l) m = Returns n m.
Proof. intros (L & Hl & _ & _ & <- & _). unfold List_Length. mrun. Qed.

Lemma Head_repr m l cs n mu :
  repr m l cs n mu → List_Head (Some l) m = Returns (head cs.*1) m.
Proof.
  intros (L & Hl & Hseg & _). unfold List_Head. unfold_M. rewrite Hl.
  destruct cs as [|[a v] cs]; cbn [lseg fst] in Hseg.
  - by rewrite Hseg.
  - by destruct Hseg as (-> & _).
Qed.

Lemma Tail_repr m l cs n mu :
  repr m l cs n mu → List_Tail (Some l) m = Returns (last cs.*1) m.
Proof.
  intros (L & Hl & _ & <- & _). unfold List_Tail. mrun.
Qed.

Lemma traverse_spec m cs fuel node :
  lseg (nodes m) node None cs → (length cs ≤ fuel)%nat →
  traverse fuel node m = Returns cs.*2 m.
Proof.
  revert fuel node.
  induction cs as [|[a v] cs IH]; intros fuel node;
    rewrite ?fmap_cons; cbn [lseg fst snd length].
  - intros -> _. by destruct fuel.
  - intros (-> & nx & Ha & Hseg) Hf. destruct fuel as [|fuel]; [lia|].
    cbn [traverse]. unfold ListNode_Value, ListNode_Next. unfold_M.
    rewrite Ha. cbn [ListNode_value ListNode_next]. rewrite Ha.
    cbn [ListNode_value ListNode_next].
    rewrite (IH fuel nx); [done|done|lia].
Qed.

Lemma traversal_repr m l cs n mu fuel :
  repr m l cs n mu → (length cs ≤ fuel)%nat →
  traversal fuel (Some l) m = Returns cs.*2 m.
Proof.
  intros (L & Hl & Hseg & _) Hf. unfold traversal, List_Head. unfold_M.
  rewrite Hl. by apply traverse_spec.
Qed.

(** ** Well-formed lists are preserved *)

Lemma NewList_spec m :
  ∃ l m', NewList m = Returns (Some l) m' ∧ repr m' l [] 0 RWMutex_free ∧
          nodes m' = nodes m.
Proof.
  eexists _, _. split; [reflexivity|]. split; [|done].
  eexists. split; [apply lookup_insert_eq|]. done.
Qed.

Lemma is_list_nil m l : repr m l [] 0 RWMutex_free → is_list m l [].
Proof. intros Hr. split; [done|]. by vm_compute. Qed.

Lemma is_list_grow m l cs cs' :
  repr m l cs' (int_wrap (Z.of_nat (length cs) + 1)) RWMutex_free →
  length cs' = S (length cs) → Z.of_nat (length cs) < int_max →
  is_list m l cs'.
Proof.
  intros Hr Hlen Hb. unfold is_list. rewrite Hlen.
  rewrite int_wrap_id in Hr by (unfold int_min, int_max in *; lia).
  split; [|lia]. by replace (Z.of_nat (S (length cs))) with (Z.of_nat (length cs) + 1) by lia.
Qed.

Lemma is_list_shrink m l cs cs' :
  repr m l cs' (int_wrap (Z.of_nat (length cs) - 1)) RWMutex_free →
  length cs = S (length cs') → Z.of_nat (length cs) ≤ int_max →
  is_list m l cs'.
Proof.
  intros Hr Hlen Hb. unfold is_list. rewrite Hlen in *.
  rewrite int_wrap_id in Hr by (unfold int_min, int_max in *; lia).
  split; [|lia]. by replace (Z.of_nat (length cs')) with (Z.of_nat (S (length cs')) - 1) by lia.
Qed.

Lemma Insert_is_list m l cs v :
  is_list m l cs → Z.of_nat (length cs) < int_max →
  ∃ p m', List_Insert (Some l) v m = Returns None m' ∧ is_list m' l ((p, v) :: cs).
Proof.
  intros [Hr _] Hb. destruct (Insert_repr _ _ _ _ v Hr) as (p & m' & Hi & Hr').
  exists p, m'. split; [done|]. by eapply is_list_grow.
Qed.

Lemma Append_is_list m l cs v :
  is_list m l cs → Z.of_nat (length cs) < int_max →
  ∃ p m', List_Append (Some l) v m = Returns None m' ∧ is_list m' l (cs ++ [(p, v)]).
Proof.
  intros [Hr _] Hb. destruct (Append_repr _ _ _ _ v Hr) as (p & m' & Hi & Hr').
  exists p, m'. split; [done|]. eapply is_list_grow; [done| |done].
  rewrite length_app. simpl. lia.
Qed.

Lemma Delete_is_list m l cs1 f cs2 (x : T) fuel :
  is_list m l (cs1 ++ (f, x) :: cs2) → x ∉ cs1.*2 → (length cs1 < fuel)%nat →
  ∃ m', List_Delete fuel (Some l) x m = Returns true m' ∧ is_list m' l (cs1 ++ cs2).
Proof.
  intros [Hr Hb] Hx Hf. destruct (Delete_found _ _ _ _ _ _ _ _ Hr Hx Hf) as (m' & Hd & Hr').
  exists m'. split; [done|]. eapply is_list_shrink; [done| |done].
  rewrite !length_app. simpl. lia.
Qed.

Lemma DeleteHead_is_list m l a v cs :
  is_list m l ((a, v) :: cs) →
  ∃ m', List_DeleteHead (Some l) m = Returns (v, true) m' ∧ is_list m' l cs.
Proof.
  intros [Hr Hb]. destruct (DeleteHead_cons _ _ _ _ _ _ Hr) as (m' & Hd & Hr').
  exists m'. split; [done|]. by eapply is_list_shrink.
Qed.

Lemma DeleteTail_is_list m l cs0 t v fuel :
  is_list m l (cs0 ++ [(t, v)]) → (length cs0 + 1 < fuel)%nat →
  ∃ m', List_DeleteTail fuel (Some l) m = Returns (v, true) m' ∧ is_list m' l cs0.
Proof.
  intros [Hr Hb] Hf. destruct (DeleteTail_snoc _ _ _ _ _ _ _ Hr Hf) as (m' & Hd & Hr').
  exists m'. split; [done|]. eapply is_list_shrink; [done| |done].
  rewrite length_app. simpl. lia.
Qed.

(** The first cell that holds [x]. *)
Lemma first_occurrence cs (x : T) :
  x ∈ cs.*2 → ∃ cs1 f cs2, cs = cs1 ++ (f, x) :: cs2 ∧ x ∉ cs1.*2.
Proof.
  induction cs as [|[a v] cs IH]; rewrite ?fmap_cons; cbn [snd].
  - by intros ?%elem_of_nil.
  - destruct (decide (v = x)) as [->|Hne].
    + intros _. exists [], a, cs. split; [done|]. apply not_elem_of_nil.
    + intros [?|Hin]%elem_of_cons; [congruence|].
      destruct (IH Hin) as (cs1 & f & cs2 & -> & Hx).
      exists ((a, v) :: cs1), f, cs2. split; [done|].
      rewrite fmap_cons. apply not_elem_of_cons. naive_solver.
Qed.

(** ** The claims about single calls *)

(** C10: the node and list accessors are total on absent references.
    [Head] and [Tail] of a nil list handle return nil, [Value] of a nil
    node returns the zero value with [false], [Next] of a nil node returns
    nil; each returns normally and leaves the heap alone, so the walk
    [Head]/[Value]/[Next] from a nil handle ends at once, with any
    budget. *)
Theorem accessors_total_on_nil (m : mem T) (fuel : nat) :
  List_Head None m = Returns None m ∧
  List_Tail None m = Returns None m ∧
  ListNode_Value None m = Returns (ListData_zero, false) m ∧
  ListNode_Next None m = Returns None m ∧
  traversal fuel None m = Returns [] m.
Proof.
  split_and!; try reflexivity.
  unfold traversal, List_Head. unfold_M. by destruct fuel.
Qed.

(** C7: [Insert] and [Append] return the error exactly when the handle is
    nil.  Through a handle to a well-formed list with fewer than [int_max]
    elements they return no error and [Length] goes up by exactly 1 (the
    new element is first, resp. last). *)
Theorem Insert_Append_error_iff_nil (m : mem T) (list : ptr) (cs : Datatypes.list (positive * T))
    (value : T) :
  (∀ l, list = Some l → is_list m l cs ∧ Z.of_nat (length cs) < int_max) →
  ∃ e1 m1 e2 m2,
    List_Insert list value m = Returns e1 m1 ∧
    List_Append list value m = Returns e2 m2 ∧
    (e1 = Some InvalidHandle ↔ list = None) ∧
    (e2 = Some InvalidHandle ↔ list = None) ∧
    (list ≠ None ↔ e1 = None) ∧
    (list ≠ None ↔ e2 = None) ∧
    ∀ l, list = Some l →
      List_Length list m = Returns (Z.of_nat (length cs)) m ∧
      List_Length list m1 = Returns (Z.of_nat (length cs) + 1) m1 ∧
      List_Length list m2 = Returns (Z.of_nat (length cs) + 1) m2 ∧
      ∃ p1 p2, is_list m1 l ((p1, value) :: cs) ∧ is_list m2 l (cs ++ [(p2, value)]).
Proof.
  intros Hl. destruct list as [l|].
  - destruct (Hl l eq_refl) as [Hr Hb].
    destruct (Insert_is_list _ _ _ value Hr Hb) as (p1 & m1 & Hi & Hr1).
    destruct (Append_is_list _ _ _ value Hr Hb) as (p2 & m2 & Ha & Hr2).
    exists None, m1, None, m2. split_and!; try done.
    intros ? [= <-]. split_and!.
    + apply (Length_repr _ _ _ _ _ (proj1 Hr)).
    + rewrite (Length_repr _ _ _ _ _ (proj1 Hr1)). f_equal. simpl length. lia.
    + rewrite (Length_repr _ _ _ _ _ (proj1 Hr2)). f_equal.
      rewrite length_app. simpl. lia.
    + eauto.
  - exists (Some InvalidHandle), m, (Some InvalidHandle), m.
    split_and!; done.
Qed.

(** C6: on an empty list [DeleteHead] and [DeleteTail] return the zero
    value with [false] and leave the heap as it was (length 0, head and
    tail nil); on a non-empty list [DeleteHead] returns the first value
    and [DeleteTail] the last value, each with [true], and that element
    is removed. *)
Theorem DeleteHead_DeleteTail_boundary (m : mem T) (l : positive)
    (cs : Datatypes.list (positive * T)) (fuel : nat) :
  is_list m l cs → (length cs < fuel)%nat →
  (cs = [] →
     List_DeleteHead (Some l) m = Returns (ListData_zero, false) m ∧
     List_DeleteTail fuel (Some l) m = Returns (ListData_zero, false) m ∧
     List_Length (Some l) m = Returns 0 m ∧
     List_Head (Some l) m = Returns None m ∧
     List_Tail (Some l) m = Returns None m) ∧
  (∀ a v cs', cs = (a, v) :: cs' →
     ∃ m', List_DeleteHead (Some l) m = Returns (v, true) m' ∧ is_list m' l cs') ∧
  (∀ cs' a v, cs = cs' ++ [(a, v)] →
     ∃ m', List_DeleteTail fuel (Some l) m = Returns (v, true) m' ∧ is_list m' l cs').
Proof.
  intros Hr Hf. split_and!.
  - intros ->. destruct Hr as [Hr _]. split_and!.
    + by eapply DeleteHead_empty.
    + by eapply DeleteTail_empty.
    + by eapply Length_repr.
    + by rewrite (Head_repr _ _ _ _ _ Hr).
    + by rewrite (Tail_repr _ _ _ _ _ Hr).
  - intros a v cs' ->. by eapply DeleteHead_is_list.
  - intros cs' a v ->. eapply DeleteTail_is_list; [done|].
    rewrite length_app in Hf. simpl in Hf. lia.
Qed.

(** C4: [Delete(x)] on a list that holds [x] exactly once returns [true]
    and leaves the other cells, the same nodes in the same order;
    on a list that does not hold [x] it returns [false] and the heap is
    unchanged (same length, traversal, head and tail). *)
Theorem Delete_correct (m : mem T) (l : positive) (cs : Datatypes.list (positive * T))
    (x : T) (fuel : nat) :
  is_list m l cs → (length cs < fuel)%nat →
  (∀ cs1 f cs2, cs = cs1 ++ (f, x) :: cs2 → x ∉ cs1.*2 → x ∉ cs2.*2 →
     ∃ m', List_Delete fuel (Some l) x m = Returns true m' ∧
           is_list m' l (cs1 ++ cs2) ∧
           traversal fuel (Some l) m' = Returns (cs1.*2 ++ cs2.*2) m') ∧
  (x ∉ cs.*2 → List_Delete fuel (Some l) x m = Returns false m).
Proof.
  intros Hr Hf. split.
  - intros cs1 f cs2 -> Hx1 _.
    rewrite length_app in Hf. simpl in Hf.
    destruct (Delete_is_list _ _ _ _ _ _ fuel Hr Hx1) as (m' & Hd & Hr'); [lia|].
    exists m'. split_and!; [done..|].
    rewrite (traversal_repr _ _ _ _ _ _ (proj1 Hr')).
    + by rewrite fmap_app.
    + rewrite length_app. lia.
  - intros Hx. destruct Hr as [Hr _]. by eapply Delete_absent.
Qed.

(** ** Sequences of calls *)

Lemma exec_cons fuel list (o : op) ops m m' :
  exec_op fuel list o m = Returns () m' →
  exec fuel list (o :: ops) m = exec fuel list ops m'.
Proof. intros Ho. cbn [exec]. by rewrite (bind_Returns _ _ _ _ _ Ho). Qed.

Lemma exec_is_list fuel m l cs (ops : list op) :
  is_list m l cs →
  Z.of_nat (length cs + length ops) ≤ int_max →
  (length cs + length ops < fuel)%nat →
  ∃ m' cs', exec fuel (Some l) ops m = Returns () m' ∧ is_list m' l cs' ∧
            (length cs' ≤ length cs + length ops)%nat.
Proof.
  revert m cs. induction ops as [|o ops IH]; intros m cs Hr Hb Hf.
  { exists m, cs. split_and!; [done..|lia]. }
  cbn [length] in Hb, Hf.
  assert (∀ m1 cs1, exec_op fuel (Some l) o m = Returns () m1 →
            is_list m1 l cs1 → (length cs1 ≤ S (length cs))%nat →
            ∃ m' cs', exec fuel (Some l) (o :: ops) m = Returns () m' ∧
                      is_list m' l cs' ∧
                      (length cs' ≤ length cs + S (length ops))%nat) as Hstep.
  { intros m1 cs1 Ho Hr1 Hlen.
    destruct (IH m1 cs1 Hr1) as (m' & cs' & He & Hr' & Hlen'); [lia..|].
    exists m', cs'. rewrite (exec_cons _ _ _ _ _ _ Ho). split_and!; [done..|lia]. }
  destruct o as [v|v|x| |].
  - destruct (Insert_is_list _ _ _ v Hr) as (p & m1 & Hi & Hr1); [lia|].
    apply (Hstep m1 ((p, v) :: cs)); [|done|simpl; lia].
    unfold exec_op. by rewrite (bind_Returns _ _ _ _ _ Hi).
  - destruct (Append_is_list _ _ _ v Hr) as (p & m1 & Hi & Hr1); [lia|].
    apply (Hstep m1 (cs ++ [(p, v)])); [|done|rewrite length_app; simpl; lia].
    unfold exec_op. by rewrite (bind_Returns _ _ _ _ _ Hi).
  - destruct (decide (x ∈ cs.*2)) as [Hin|Hnin].
    + apply first_occurrence in Hin as (cs1 & f & cs2 & -> & Hx).
      rewrite length_app in Hf. cbn [length] in Hf.
      destruct (Delete_is_list _ _ _ _ _ _ fuel Hr Hx) as (m1 & Hd & Hr1); [lia|].
      apply (Hstep m1 (cs1 ++ cs2)); [|done|rewrite !length_app; simpl; lia].
      unfold exec_op. by rewrite (bind_Returns _ _ _ _ _ Hd).
    + apply (Hstep m cs); [|done|lia].
      unfold exec_op.
      rewrite (bind_Returns _ _ _ _ _ (Delete_absent _ _ _ _ _ fuel (proj1 Hr) Hnin ltac:(lia))).
      done.
  - destruct cs as [|[a v] cs].
    + apply (Hstep m []); [|done|simpl; lia].
      unfold exec_op.
      by rewrite (bind_Returns _ _ _ _ _ (DeleteHead_empty _ _ _ (proj1 Hr))).
    + destruct (DeleteHead_is_list _ _ _ _ _ Hr) as (m1 & Hd & Hr1).
      apply (Hstep m1 cs); [|done|simpl; lia].
      unfold exec_op. by rewrite (bind_Returns _ _ _ _ _ Hd).
  - destruct cs as [|[a v] cs _] using rev_ind.
    + apply (Hstep m []); [|done|simpl; lia].
      unfold exec_op.
      by rewrite (bind_Returns _ _ _ _ _ (DeleteTail_empty _ _ _ fuel (proj1 Hr))).
    + rewrite length_app in Hf. cbn [length] in Hf.
      destruct (DeleteTail_is_list _ _ _ _ _ fuel Hr) as (m1 & Hd & Hr1); [lia|].
      apply (Hstep m1 cs); [|done|rewrite length_app; simpl; lia].
      unfold exec_op. by rewrite (bind_Returns _ _ _ _ _ Hd).
Qed.

Lemma lseg_reachable (h : gmap positive (ListNode T)) p cs (a : positive) :
  lseg h p None cs → reachable h p a ↔ a ∈ cs.*1.
Proof.
  intros Hseg. split.
  - intros Hre. revert cs Hseg.
    induction Hre as [a n Ha|a b n Ha Hre IH]; intros [|[c v] cs];
      cbn [lseg fst snd]; try done.
    + intros ([= <-] & _). rewrite fmap_cons. left.
    + intros ([= <-] & nx & Hc & Hseg). rewrite fmap_cons. right.
      apply IH. rewrite Ha in Hc. by injection Hc as ->.
  - revert p Hseg. induction cs as [|[c v] cs IH]; intros p;
      rewrite ?fmap_cons; cbn [lseg fst snd].
    + by intros _ ?%elem_of_nil.
    + intros (-> & nx & Hc & Hseg) [->|Hin]%elem_of_cons.
      * by eapply reachable_here.
      * eapply reachable_next; [done|]. by apply IH.
Qed.

Lemma is_list_invariants m l cs : is_list m l cs → invariants m l.
Proof.
  intros [(L & Hl & Hseg & Htl & Hlen & _) _]. exists L, cs.
  split_and!; try done.
  - by eapply lseg_nil_NoDup.
  - intros a. by apply lseg_reachable.
  - rewrite Hlen. rewrite <- (lseg_last _ _ _ Hseg).
    destruct cs; simpl; split; (done || lia).
  - rewrite Hlen, Htl. destruct cs as [|c cs]; [done|].
    rewrite fmap_cons, last_cons. simpl length.
    split; [lia|by destruct (last cs.*1)].
Qed.

(** C3: after every prefix of every sequence of [Insert], [Append],
    [Delete], [DeleteHead] and [DeleteTail] calls on a list made by
    [NewList], the structural invariants hold: [length] is the number of
    nodes reachable from [head], [head] is nil iff [length] is 0 iff
    [tail] is nil, and the [next] links from [head] reach nil after
    [length] nodes, the last of which is [tail].  The sequence is no
    longer than the loop budget and than [int_max]. *)
Theorem invariants_preserved (m : mem T) (ops : Datatypes.list op) (k fuel : nat) :
  (length ops < fuel)%nat → Z.of_nat (length ops) ≤ int_max →
  ∃ l m', (list ← NewList; exec fuel list (take k ops);; mret list) m
          = Returns (Some l) m' ∧
          invariants m' l.
Proof.
  intros Hf Hb.
  destruct (NewList_spec m) as (l & m0 & Hn & Hr0 & _).
  pose proof (length_take ops k) as Hk.
  destruct (exec_is_list fuel m0 l [] (take k ops)) as (m' & cs' & He & Hr' & _).
  - by apply is_list_nil.
  - cbn [length Nat.add]. lia.
  - cbn [length Nat.add]. lia.
  - exists l, m'. split; [|by eapply is_list_invariants].
    rewrite (bind_Returns _ _ _ _ _ Hn). by rewrite (bind_Returns _ _ _ _ _ He).
Qed.

Lemma exec_Insert_repr fuel m l cs n (vs : list T) :
  repr m l cs n RWMutex_free →
  ∃ m' cs' n', exec fuel (Some l) (Op_Insert <$> vs) m = Returns () m' ∧
               repr m' l cs' n' RWMutex_free ∧
               cs'.*2 = reverse vs ++ cs.*2.
Proof.
  revert m cs n. induction vs as [|v vs IH]; intros m cs n Hr.
  { exists m, cs, n. by split_and!. }
  destruct (Insert_repr _ _ _ _ v Hr) as (p & m1 & Hi & Hr1).
  destruct (IH _ _ _ Hr1) as (m' & cs' & n' & He & Hr' & Hvs).
  exists m', cs', n'. split_and!; [|done|].
  - rewrite fmap_cons. erewrite exec_cons; [done|].
    unfold exec_op. by rewrite (bind_Returns _ _ _ _ _ Hi).
  - rewrite Hvs, reverse_cons, fmap_cons, <- app_assoc. done.
Qed.

Lemma exec_Append_repr fuel m l cs n (vs : list T) :
  repr m l cs n RWMutex_free →
  ∃ m' cs' n', exec fuel (Some l) (Op_Append <$> vs) m = Returns () m' ∧
               repr m' l cs' n' RWMutex_free ∧
               cs'.*2 = cs.*2 ++ vs.
Proof.
  revert m cs n. induction vs as [|v vs IH]; intros m cs n Hr.
  { exists m, cs, n. split_and!; [done..|by rewrite app_nil_r]. }
  destruct (Append_repr _ _ _ _ v Hr) as (p & m1 & Hi & Hr1).
  destruct (IH _ _ _ Hr1) as (m' & cs' & n' & He & Hr' & Hvs).
  exists m', cs', n'. split_and!; [|done|].
  - rewrite fmap_cons. erewrite exec_cons; [done|].
    unfold exec_op. by rewrite (bind_Returns _ _ _ _ _ Hi).
  - rewrite Hvs, fmap_app, <- app_assoc. done.
Qed.

(** C5: starting from the list made by [NewList], [Insert(v1)], ...,
    [Insert(vn)] in that order give the traversal [vn, ..., v1], and
    [Append(v1)], ..., [Append(vn)] give the traversal [v1, ..., vn]. *)
Theorem Insert_order_Append_order (m : mem T) (vs : Datatypes.list T) (fuel : nat) :
  ∃ m1 m2,
    (list ← NewList; exec fuel list (Op_Insert <$> vs);; traversal (length vs) list) m
    = Returns (reverse vs) m1 ∧
    (list ← NewList; exec fuel list (Op_Append <$> vs);; traversal (length vs) list) m
    = Returns vs m2.
Proof.
  destruct (NewList_spec m) as (l & m0 & Hn & Hr0 & _).
  destruct (exec_Insert_repr fuel _ _ _ _ vs Hr0) as (m1 & cs1 & n1 & He1 & Hr1 & Hv1).
  destruct (exec_Append_repr fuel _ _ _ _ vs Hr0) as (m2 & cs2 & n2 & He2 & Hr2 & Hv2).
  rewrite fmap_nil, app_nil_r in Hv1. rewrite fmap_nil, app_nil_l in Hv2.
  exists m1, m2. split.
  - rewrite (bind_Returns _ _ _ _ _ Hn), (bind_Returns _ _ _ _ _ He1).
    rewrite (traversal_repr _ _ _ _ _ _ Hr1); [by rewrite Hv1|].
    apply (f_equal length) in Hv1. rewrite length_fmap, length_reverse in Hv1. lia.
  - rewrite (bind_Returns _ _ _ _ _ Hn), (bind_Returns _ _ _ _ _ He2).
    rewrite (traversal_repr _ _ _ _ _ _ Hr2); [by rewrite Hv2|].
    apply (f_equal length) in Hv2. rewrite length_fmap in Hv2. lia.
Qed.

(** ** [String] *)

Lemma string_app_assoc (a b c : string) : ((a +:+ b) +:+ c = a +:+ (b +:+ c))%string.
Proof.
  induction a as [|x a IH]; [done|].
  change (String x ((a +:+ b) +:+ c) = String x (a +:+ (b +:+ c)))%string.
  by f_equal.
Qed.

Lemma string_app_nil_r (a : string) : (a +:+ "" = a)%string.
Proof.
  induction a as [|x a IH]; [done|].
  change (String x (a +:+ "") = String x a)%string. by f_equal.
Qed.

Lemma foldl_String (g : T → string) (s0 : string) (vs : list T) :
  foldl (λ s v, s +:+ " " +:+ g v)%string s0 vs
  = (s0 +:+ match vs with
            | [] => ""
            | _ => " " +:+ String.concat " " (g <$> vs)
            end)%string.
Proof.
  revert s0. induction vs as [|v vs IH]; intros s0.
  - by rewrite string_app_nil_r.
  - cbn [foldl]. rewrite IH. rewrite fmap_cons. destruct vs as [|w vs].
    + by rewrite string_app_nil_r.
    + rewrite !fmap_cons. cbn [String.concat].
      by rewrite !string_app_assoc.
Qed.

Lemma String_repr m l cs n fuel :
  repr m l cs n RWMutex_free → 0 ≤ n → (length cs < fuel)%nat →
  List_String fuel (Some l) m = Returns (render n (ListData_String <$> cs.*2)) m.
Proof.
  intros Hr Hn Hf.
  pose proof (repr_set_mux _ _ _ _ _ RWMutex_read Hr) as Hr'.
  unfold List_String.
  erewrite read_locked_spec; [|done| |done].
  - by erewrite locked_unchanged.
  - destruct Hr' as (L & Hl & Hseg & _ & Hlen & _).
    unfold get_List, make_slice. unfold mbind, M_bind, mret, M_ret.
    repeat (rewrite Hl; cbn beta iota).
    rewrite Hlen. rewrite decide_False by lia.
    rewrite (String_loop_spec _ cs); [|done..]. rewrite Hl.
    cbn beta iota. rewrite Hlen.
    f_equal. rewrite app_nil_l, foldl_String. unfold render.
    destruct cs as [|[a v] cs]; [apply string_app_nil_r|].
    rewrite !fmap_cons. by rewrite !string_app_assoc.
Qed.

(** C8: on a well-formed list with the elements [v1, ..., vn],
    [String] returns ["Length: <n>, Data: <v1> <v2> ... <vn>"], with [n]
    the length in decimal and each element through its own [String]
    method; on the empty list it returns ["Length: 0, Data:"]. *)
Theorem String_renders (m : mem T) (l : positive) (cs : Datatypes.list (positive * T))
    (fuel : nat) :
  is_list m l cs → (length cs < fuel)%nat →
  List_Length (Some l) m = Returns (Z.of_nat (length cs)) m ∧
  traversal fuel (Some l) m = Returns cs.*2 m ∧
  List_String fuel (Some l) m
  = Returns (render (Z.of_nat (length cs)) (ListData_String <$> cs.*2)) m ∧
  (cs = [] → List_String fuel (Some l) m = Returns "Length: 0, Data:"%string m).
Proof.
  intros [Hr _] Hf. split_and!.
  - by eapply Length_repr.
  - eapply traversal_repr; [done|lia].
  - apply String_repr; [done|lia|done].
  - intros ->. by rewrite (String_repr _ _ _ _ _ Hr) by (done || lia).
Qed.

(** ** [ForEach] *)

(** An iteration leaves the cursor where it was. *)
Lemma ForEach_iteration_stays {S : Type} (f : T → S → S) m a n (s : S) :
  nodes m !! a = Some n →
  ForEach_iteration f (Some a, s) m = Returns (Some (Some a, f (ListNode_value n) s)) m.
Proof. intros Ha. unfold ForEach_iteration. mrun. Qed.

Lemma ForEach_loop_diverges {S : Type} (f : T → S → S) m a n fuel (s : S) :
  nodes m !! a = Some n → ForEach_loop fuel f (Some a, s) m = OutOfFuel.
Proof.
  intros Ha. revert s. induction fuel as [|fuel IH]; intros s; cbn [ForEach_loop].
  - by rewrite (bind_Returns _ _ _ _ _ (ForEach_iteration_stays f _ _ _ s Ha)).
  - rewrite (bind_Returns _ _ _ _ _ (ForEach_iteration_stays f _ _ _ s Ha)).
    apply IH.
Qed.

Lemma ForEach_nonempty {S : Type} (f : T → S → S) m l a v cs n fuel (s : S) :
  repr m l ((a, v) :: cs) n RWMutex_free →
  List_ForEach fuel (Some l) f s m = OutOfFuel.
Proof.
  intros Hr.
  pose proof (repr_set_mux _ _ _ _ _ RWMutex_read Hr) as (L & Hl & Hseg & _).
  unfold List_ForEach, deref_List. rewrite (bind_Returns _ _ m m l) by done.
  rewrite (bind_Returns _ _ _ _ _ (RLock_spec _ _ _ _ Hr)).
  cbn [lseg fst snd] in Hseg. destruct Hseg as (Hhd & nx & Ha & _).
  unfold defer, get_List, mbind, M_bind. rewrite Hl. cbn beta iota.
  by rewrite Hhd, (ForEach_loop_diverges f _ _ _ fuel s Ha).
Qed.

Lemma ForEach_empty {S : Type} (f : T → S → S) m l n fuel (s : S) :
  repr m l [] n RWMutex_free →
  List_ForEach fuel (Some l) f s m = Returns s m.
Proof.
  intros Hr.
  pose proof (repr_set_mux _ _ _ _ _ RWMutex_read Hr) as Hr'.
  unfold List_ForEach, deref_List. rewrite (bind_Returns _ _ m m l) by done.
  erewrite read_locked_spec; [|done| |done].
  - by erewrite locked_unchanged.
  - destruct Hr' as (L & Hl & Hseg & _). cbn [lseg] in Hseg.
    unfold get_List. unfold mbind, M_bind. rewrite Hl, Hseg. by destruct fuel.
Qed.

(** C1 (fails on the code): [ForEach] on a list with an element never
    returns.  The loop calls [f] on the head's value and leaves the cursor
    on the head, so every budget is exhausted; only on the empty list does
    [ForEach] return, without calling [f]. *)
Theorem ForEach_diverges_on_nonempty {S : Type} (m : mem T) (value : T) (f : T → S → S)
    (s : S) (fuel : nat) :
  (list ← NewList; List_Insert list value;; List_ForEach fuel list f s) m = OutOfFuel ∧
  (∃ m', (list ← NewList; List_ForEach fuel list f s) m = Returns s m').
Proof.
  destruct (NewList_spec m) as (l & m0 & Hn & Hr0 & _).
  rewrite !(bind_Returns _ _ _ _ _ Hn). split.
  - destruct (Insert_repr _ _ _ _ value Hr0) as (p & m1 & Hi & Hr1).
    rewrite (bind_Returns _ _ _ _ _ Hi). by eapply ForEach_nonempty.
  - exists m0. by eapply ForEach_empty.
Qed.

(** ** [Find] *)

(** C2 (fails on the code): through a nil handle [Find] panics, because it
    takes the read lock through [list.mux] before [findParent] tests the
    handle; [findParent] itself returns nil for a nil handle. *)
Theorem Find_nil_handle_panics (m : mem T) (value : T) (fuel : nat) :
  List_Find fuel None value m = Panics ∧
  List_findParent fuel None value m = Returns (None, None) m.
Proof. split; reflexivity. Qed.

(** The part of C2 that the code meets: through a handle to a well-formed
    list, [Find] returns the first node, in head-to-tail order, whose value
    is [x], and nil when there is none; the heap is unchanged. *)
Theorem Find_present (m : mem T) (l : positive) (cs : Datatypes.list (positive * T))
    (x : T) (fuel : nat) :
  is_list m l cs → (length cs < fuel)%nat →
  (∀ cs1 f cs2, cs = cs1 ++ (f, x) :: cs2 → x ∉ cs1.*2 →
     List_Find fuel (Some l) x m = Returns (Some f) m) ∧
  (x ∉ cs.*2 → List_Find fuel (Some l) x m = Returns None m).
Proof.
  intros [Hr _] Hf. split.
  - intros cs1 f cs2 -> Hx. eapply Find_found; [done..|].
    rewrite length_app in Hf. lia.
  - intros Hx. by eapply Find_absent.
Qed.

End specs.

(** * Concurrent executions *)

Section concurrency.
Context {T : Type} `{!ListData T}.

Implicit Types (m : mem T) (l : positive) (cs : list (positive * T))
  (t : @thread T) (ts : list (@thread T)) (o : @op T) (ops : list (@op T))
  (x : T) (xs : list T).

(** A call is its lock acquisition followed by its critical section. *)
Lemma exec_op_critical_section fuel l o m :
  exec_op fuel (Some l) o m
  = (RWMutex_Lock l;; defer (RWMutex_Unlock l) (critical_section fuel l o)) m.
Proof.
  destruct o; unfold exec_op, critical_section, List_Insert, List_Append,
    List_Delete, List_DeleteHead, List_DeleteTail, deref_List, defer,
    mbind, M_bind, mret, M_ret;
    repeat case_match; congruence.
Qed.

Lemma worker_cons x xs :
  worker (x :: xs)
  = Op_Append x :: Op_Delete x :: Op_Insert x :: Op_Delete x :: worker xs.
Proof. reflexivity. Qed.

Lemma owes_worker xs b : owes (mkThread (worker xs) b) = [].
Proof. by destruct xs. Qed.

Lemma owes_length t : (length (owes t) ≤ 1)%nat.
Proof. unfold owes. repeat case_match; simpl; lia. Qed.

Lemma concat_owes_length ts : (length (concat (owes <$> ts)) ≤ length ts)%nat.
Proof.
  induction ts as [|t ts IH]; [done|].
  rewrite fmap_cons. cbn [concat length]. rewrite length_app.
  pose proof (owes_length t). lia.
Qed.

(** The programs left to a worker that still has a call to make. *)
Lemma phase_cons_inv o ops :
  phase (o :: ops) →
  (∃ x, o = Op_Append x ∧ owes (mkThread (o :: ops) true) = [] ∧
        ∀ b, owes (mkThread ops b) = [x]) ∨
  (∃ x, o = Op_Insert x ∧ owes (mkThread (o :: ops) true) = [] ∧
        ∀ b, owes (mkThread ops b) = [x]) ∨
  (∃ x, o = Op_Delete x ∧ owes (mkThread (o :: ops) true) = [x] ∧
        ∀ b, owes (mkThread ops b) = []).
Proof.
  intros Hph. inversion Hph as [xs Hw|x xs|x xs|x xs]; subst.
  - destruct xs as [|x xs]; [done|]. rewrite worker_cons in Hw.
    injection Hw as <- <-. left. eauto.
  - right. right. eauto.
  - right. left. eauto.
  - right. right. exists x. split_and!; [done..|]. apply owes_worker.
Qed.

Lemma phase_tail o ops : phase (o :: ops) → phase ops.
Proof.
  intros Hph. inversion Hph as [xs Hw|x xs|x xs|x xs]; subst.
  - destruct xs as [|x xs]; [done|]. rewrite worker_cons in Hw.
    injection Hw as <- <-. constructor.
  - constructor.
  - constructor.
  - constructor.
Qed.

Section executions.
Variables (fuel : nat) (l : positive) (s : T) (N : nat).
Hypothesis HN : Z.of_nat N < int_max.
Hypothesis Hfuel : (N + 1 < fuel)%nat.

(** The critical section of a worker's call, in a list that holds the
    sentinel, what this thread owes and what the others owe ([O1], [O2]):
    it returns, and the list then holds what the thread owes after the
    call. *)
Lemma critical_section_worker m cs o ops (O1 O2 : list T) :
  repr m l cs (Z.of_nat (length cs)) RWMutex_held →
  phase (o :: ops) →
  cs.*2 ≡ₚ s :: O1 ++ owes (mkThread (o :: ops) true) ++ O2 →
  (length O1 + length O2 < N)%nat →
  ∃ m1 cs', critical_section fuel l o m = Returns () m1 ∧
            repr m1 l cs' (Z.of_nat (length cs')) RWMutex_held ∧
            cs'.*2 ≡ₚ s :: O1 ++ owes (mkThread ops false) ++ O2.
Proof.
  intros Hr Hph Hperm HO.
  pose proof (Permutation_length Hperm) as Hlen.
  rewrite length_fmap in Hlen. cbn [length] in Hlen. rewrite !length_app in Hlen.
  destruct (phase_cons_inv _ _ Hph)
    as [(x & -> & Ho & Ho')|[(x & -> & Ho & Ho')|(x & -> & Ho & Ho')]];
    rewrite Ho in Hperm, Hlen; rewrite Ho'; cbn [length app] in *.
  - destruct (Append_locked_spec _ _ _ _ _ x Hr) as (p & m1 & Hb & _ & Hr1).
    exists m1, (cs ++ [(p, x)]). split_and!.
    + unfold critical_section. by rewrite (bind_Returns _ _ _ _ _ Hb).
    + rewrite int_wrap_id in Hr1 by (unfold int_min, int_max in *; lia).
      rewrite length_app. cbn [length].
      by replace (Z.of_nat (length cs + 1)) with (Z.of_nat (length cs) + 1) by lia.
    + rewrite fmap_app, Hperm. cbn [fmap list_fmap snd app].
      constructor. rewrite <- app_assoc. apply Permutation_app_head.
      symmetry. apply Permutation_cons_append.
  - destruct (Insert_locked_spec _ _ _ _ _ x Hr) as (p & m1 & Hb & _ & Hr1).
    exists m1, ((p, x) :: cs). split_and!.
    + unfold critical_section. by rewrite (bind_Returns _ _ _ _ _ Hb).
    + rewrite int_wrap_id in Hr1 by (unfold int_min, int_max in *; lia).
      cbn [length].
      by replace (Z.of_nat (S (length cs))) with (Z.of_nat (length cs) + 1) by lia.
    + rewrite fmap_cons, Hperm. cbn [snd]. apply (Permutation_middle (s :: O1)).
  - assert (x ∈ cs.*2) as Hin.
    { rewrite Hperm. apply elem_of_cons. right. apply elem_of_app. right. left. }
    apply first_occurrence in Hin as (cs1 & f & cs2 & -> & Hx).
    rewrite length_app in Hlen. cbn [length] in Hlen.
    destruct (Delete_locked_found _ _ _ _ _ _ _ _ fuel Hr Hx) as (m1 & Hb & Hr1); [lia|].
    exists m1, (cs1 ++ cs2). split_and!.
    + unfold critical_section. by rewrite (bind_Returns _ _ _ _ _ Hb).
    + rewrite length_app in Hr1. cbn [length] in Hr1.
      rewrite int_wrap_id in Hr1 by (unfold int_min, int_max in *; lia).
      rewrite length_app.
      by replace (Z.of_nat (length cs1 + length cs2))
        with (Z.of_nat (length cs1 + S (length cs2)) - 1) by lia.
    + rewrite fmap_app, fmap_cons in Hperm. cbn [snd] in Hperm.
      rewrite fmap_app.
      apply (Permutation_cons_inv (a := x)).
      rewrite (Permutation_middle cs1.*2), Hperm.
      symmetry. apply (Permutation_middle (s :: O1)).
Qed.

Lemma concat_owes_lookup ts i t :
  ts !! i = Some t →
  concat (owes <$> ts)
  = concat (owes <$> take i ts) ++ owes t ++ concat (owes <$> drop (S i) ts).
Proof.
  intros Hi. rewrite <- (take_drop_middle ts i t Hi) at 1.
  by rewrite fmap_app, concat_app, fmap_cons.
Qed.

Lemma concat_owes_insert ts i t t' :
  ts !! i = Some t →
  concat (owes <$> <[i:=t']> ts)
  = concat (owes <$> take i ts) ++ owes t' ++ concat (owes <$> drop (S i) ts).
Proof.
  intros Hi. rewrite insert_take_drop by (by eapply lookup_lt_Some).
  by rewrite fmap_app, concat_app, fmap_cons.
Qed.

Lemma others_owe ts i t :
  ts !! i = Some t → length ts = N →
  (length (concat (owes <$> take i ts))
   + length (concat (owes <$> drop (S i) ts)) < N)%nat.
Proof.
  intros Hi HlenN. apply lookup_lt_Some in Hi.
  pose proof (concat_owes_length (take i ts)) as H1.
  pose proof (concat_owes_length (drop (S i) ts)) as H2.
  rewrite length_take in H1. rewrite length_drop in H2. lia.
Qed.

(** The thread that holds the mutex finishes its call. *)
Lemma holder_step m ts i t :
  concurrent_inv l s (m, ts) → length ts = N →
  ts !! i = Some t → holding t = true →
  ∃ c t' m', thread_step fuel l t = Some c ∧ c m = Returns t' m' ∧
             concurrent_inv l s (m', <[i:=t']> ts).
Proof.
  intros (cs & mu & Hr & Hperm & Hall & Hlock) HlenN Hi Hh. cbn [fst snd] in *.
  destruct Hlock as [[-> Hno]|(-> & i0 & t0 & Hi0 & Hh0 & Huniq)].
  { rewrite (Hno _ _ Hi) in Hh. done. }
  destruct (Forall_lookup_1 _ _ _ _ Hall Hi) as [Hph Hne].
  destruct (todo t) as [|o ops] eqn:Htodo; [by destruct (Hne Hh)|].
  rewrite (concat_owes_lookup _ _ _ Hi) in Hperm.
  assert (owes t = owes (mkThread (o :: ops) true)) as Ho.
  { unfold owes. by rewrite Htodo. }
  rewrite Ho in Hperm.
  destruct (critical_section_worker m cs o ops _ _ Hr Hph Hperm
              (others_owe _ _ _ Hi HlenN)) as (m1 & cs' & Hb & Hr1 & Hperm1).
  assert (defer (RWMutex_Unlock l) (critical_section fuel l o) m
          = Returns () (set_mux RWMutex_free l m1)) as Hd.
  { unfold defer. rewrite (bind_Returns _ _ _ _ _ Hb).
    by rewrite (bind_Returns _ _ _ _ _ (Unlock_spec _ _ _ _ Hr1)). }
  eexists _, (mkThread ops false), (set_mux RWMutex_free l m1). split_and!.
  - unfold thread_step. by rewrite Htodo, Hh.
  - by rewrite (bind_Returns _ _ _ _ _ Hd).
  - exists cs', RWMutex_free. cbn [fst snd]. split_and!.
    + by eapply repr_set_mux.
    + by rewrite (concat_owes_insert _ _ _ _ Hi).
    + apply Forall_insert; [done|]. split; [by eapply phase_tail|done].
    + left. split; [done|]. intros j t' Hj.
      destruct (decide (j = i)) as [->|Hji].
      * rewrite list_lookup_insert_eq in Hj by (by eapply lookup_lt_Some).
        by injection Hj as <-.
      * rewrite list_lookup_insert_ne in Hj by done.
        destruct (holding t') eqn:Hh'; [|done].
        pose proof (Huniq _ _ Hj Hh'). pose proof (Huniq _ _ Hi Hh). congruence.
Qed.

(** A thread between two calls takes the mutex when it is free, and
    waits when it is held. *)
Lemma idle_step m ts i t o ops :
  concurrent_inv l s (m, ts) →
  ts !! i = Some t → holding t = false → todo t = o :: ops →
  ∃ c, thread_step fuel l t = Some c ∧
       (((∀ j t', ts !! j = Some t' → holding t' = false) ∧
         ∃ t' m', c m = Returns t' m' ∧ concurrent_inv l s (m', <[i:=t']> ts)) ∨
        ((∃ j t', ts !! j = Some t' ∧ holding t' = true) ∧ c m = Blocks)).
Proof.
  intros (cs & mu & Hr & Hperm & Hall & Hlock) Hi Hh Htodo. cbn [fst snd] in *.
  eexists. split; [unfold thread_step; by rewrite Htodo, Hh|].
  destruct Hlock as [[-> Hno]|(-> & i0 & t0 & Hi0 & Hh0 & Huniq)].
  - left. split; [done|].
    exists (mkThread (o :: ops) true), (set_mux RWMutex_held l m). split.
    { by rewrite (bind_Returns _ _ _ _ _ (Lock_spec _ _ _ _ Hr)). }
    exists cs, RWMutex_held. cbn [fst snd]. split_and!.
    + by eapply repr_set_mux.
    + rewrite (concat_owes_insert _ _ _ _ Hi), Hperm, (concat_owes_lookup _ _ _ Hi).
      unfold owes at 2 4. cbn [todo]. by rewrite Htodo.
    + apply Forall_insert; [done|].
      destruct (Forall_lookup_1 _ _ _ _ Hall Hi) as [Hph _].
      cbn [todo holding]. split; [by rewrite <- Htodo|done].
    + right. split; [done|]. exists i, (mkThread (o :: ops) true). split_and!.
      * apply list_lookup_insert_eq. by eapply lookup_lt_Some.
      * done.
      * intros j t' Hj Hh'. destruct (decide (j = i)) as [->|Hji]; [done|].
        rewrite list_lookup_insert_ne in Hj by done.
        rewrite (Hno _ _ Hj) in Hh'. done.
  - right. split; [eauto|].
    destruct Hr as (L & Hl & _ & _ & _ & Hmu).
    unfold RWMutex_Lock, with_mux, mbind, M_bind. by rewrite Hl, Hmu.
Qed.

Lemma inv_step st st' :
  concurrent_inv l s st → length st.2 = N → step fuel l st st' →
  concurrent_inv l s st' ∧ length st'.2 = N.
Proof.
  destruct st as [m ts]. intros Hinv HlenN [i Hs]. cbn [fst snd] in *.
  unfold sched_step in Hs. cbn [fst snd] in Hs.
  destruct (ts !! i) as [t|] eqn:Hi; [|done].
  destruct (thread_step fuel l t) as [c|] eqn:Hc; [|done].
  destruct (c m) as [t' m'| | |] eqn:Hcm; try done.
  injection Hs as <-. cbn [snd]. rewrite length_insert. split; [|done].
  destruct (holding t) eqn:Hh.
  - destruct (holder_step _ _ _ _ Hinv HlenN Hi Hh) as (c0 & t0 & m0 & Hc0 & Hcm0 & Hinv').
    congruence.
  - destruct (todo t) as [|o ops] eqn:Htodo.
    { unfold thread_step in Hc. by rewrite Htodo in Hc. }
    destruct (idle_step _ _ _ _ _ _ Hinv Hi Hh Htodo)
      as (c0 & Hc0 & [(_ & t0 & m0 & Hcm0 & Hinv')|(_ & Hbl)]); congruence.
Qed.

Lemma inv_rtc st st' :
  rtc (step fuel l) st st' →
  concurrent_inv l s st → length st.2 = N →
  concurrent_inv l s st' ∧ length st'.2 = N.
Proof.
  induction 1 as [st|st st1 st' Hs _ IH]; [done|].
  intros Hinv HlenN. destruct (inv_step _ _ Hinv HlenN Hs). by apply IH.
Qed.

Lemma inv_init m a progs :
  is_list m l [(a, s)] → concurrent_inv l s (m, spawn progs).
Proof.
  intros [Hr _]. exists [(a, s)], RWMutex_free. cbn [fst snd]. split_and!.
  - done.
  - replace (concat (owes <$> spawn progs)) with (@nil T); [done|].
    induction progs as [|xs progs IH]; [done|].
    cbn [spawn fmap list_fmap concat]. rewrite owes_worker. apply IH.
  - apply Forall_fmap, Forall_true. intros xs. split; [constructor|done].
  - left. split; [done|]. intros j t Hj.
    apply list_lookup_fmap_Some in Hj as (xs & -> & _). done.
Qed.

Lemma inv_safe m ts t :
  concurrent_inv l s (m, ts) → length ts = N → t ∈ ts → thread_safe fuel l m t.
Proof.
  intros Hinv HlenN (i & Hi)%list_elem_of_lookup. unfold thread_safe.
  destruct (thread_step fuel l t) as [c|] eqn:Hc; [|done].
  destruct (holding t) eqn:Hh.
  - destruct (holder_step _ _ _ _ Hinv HlenN Hi Hh) as (c0 & t0 & m0 & Hc0 & Hcm0 & _).
    left. exists t0, m0. congruence.
  - destruct (todo t) as [|o ops] eqn:Htodo.
    { unfold thread_step in Hc. by rewrite Htodo in Hc. }
    destruct (idle_step _ _ _ _ _ _ Hinv Hi Hh Htodo)
      as (c0 & Hc0 & [(_ & t0 & m0 & Hcm0 & _)|(_ & Hbl)]).
    + left. exists t0, m0. congruence.
    + right. split; [done|congruence].
Qed.

Lemma inv_progress m ts t :
  concurrent_inv l s (m, ts) → length ts = N → t ∈ ts → todo t ≠ [] →
  ∃ st', step fuel l (m, ts) st'.
Proof.
  intros Hinv HlenN (i & Hi)%list_elem_of_lookup Hne.
  assert (∀ j t', ts !! j = Some t' → holding t' = true →
            ∃ st', step fuel l (m, ts) st') as Hholder.
  { intros j t' Hj Hh'.
    destruct (holder_step _ _ _ _ Hinv HlenN Hj Hh') as (c0 & t0 & m0 & Hc0 & Hcm0 & _).
    eexists. exists j. unfold sched_step. cbn [fst snd]. by rewrite Hj, Hc0, Hcm0. }
  destruct (holding t) eqn:Hh; [by eapply Hholder|].
  destruct (todo t) as [|o ops] eqn:Htodo; [done|].
  destruct (idle_step _ _ _ _ _ _ Hinv Hi Hh Htodo)
    as (c0 & Hc0 & [(_ & t0 & m0 & Hcm0 & _)|((j & t' & Hj & Hh') & _)]).
  - eexists. exists i. unfold sched_step. cbn [fst snd]. by rewrite Hi, Hc0, Hcm0.
  - by eapply Hholder.
Qed.

Lemma inv_final m ts :
  concurrent_inv l s (m, ts) → (∀ t, t ∈ ts → todo t = []) →
  ∃ a, is_list m l [(a, s)].
Proof.
  intros (cs & mu & Hr & Hperm & Hall & Hlock) Hdone. cbn [fst snd] in *.
  assert (concat (owes <$> ts) = []) as Hnil.
  { clear -Hdone. induction ts as [|t ts IH]; [done|].
    rewrite fmap_cons. cbn [concat]. rewrite IH.
    - unfold owes. rewrite (Hdone t); [done|left].
    - intros t' Ht'. apply Hdone. by right. }
  rewrite Hnil in Hperm. apply Permutation_singleton_r in Hperm.
  destruct cs as [|[a v] [|c cs]]; try done.
  injection Hperm as ->. exists a. split; [|by vm_compute].
  destruct Hlock as [[-> _]|(-> & i0 & t0 & Hi0 & Hh0 & _)]; [done|].
  destruct (Forall_lookup_1 _ _ _ _ Hall Hi0) as [_ Hne].
  destruct (Hne Hh0). apply Hdone. by eapply list_elem_of_lookup_2.
Qed.

End executions.

Lemma work_insert ts i t t' :
  ts !! i = Some t → (work (<[i:=t']> ts) + work_of t = work ts + work_of t')%nat.
Proof.
  intros Hi. unfold work.
  rewrite insert_take_drop by (by eapply lookup_lt_Some).
  rewrite <- (take_drop_middle ts i t Hi) at 3.
  rewrite !sum_list_with_app. cbn [sum_list_with]. lia.
Qed.

(** Every step uses up one unit of work. *)
Lemma step_work fuel l (st st' : mem T * list (@thread T)) :
  step fuel l st st' → (work st'.2 + 1 = work st.2)%nat.
Proof.
  destruct st as [m ts]. intros [i Hs]. unfold sched_step in Hs. cbn [fst snd] in *.
  destruct (ts !! i) as [t|] eqn:Hi; [|done].
  unfold thread_step in Hs. destruct (todo t) as [|o ops] eqn:Htodo; [done|].
  destruct (holding t) eqn:Hh.
  - match type of Hs with match ?c with _ => _ end = _ =>
      destruct c as [t' m'| | |] eqn:Hc end; try done.
    injection Hs as <-. cbn [snd].
    apply bind_inv_Returns in Hc as (? & ? & _ & [= <- _]).
    pose proof (work_insert ts i t (mkThread ops false) Hi) as Hw.
    unfold work_of in Hw. rewrite Htodo, Hh in Hw. cbn [todo holding length] in Hw. lia.
  - match type of Hs with match ?c with _ => _ end = _ =>
      destruct c as [t' m'| | |] eqn:Hc end; try done.
    injection Hs as <-. cbn [snd].
    apply bind_inv_Returns in Hc as (? & ? & _ & [= <- _]).
    pose proof (work_insert ts i t (mkThread (o :: ops) true) Hi) as Hw.
    unfold work_of in Hw. rewrite Htodo, Hh in Hw. cbn [todo holding length] in Hw. lia.
Qed.

Lemma nsteps_work fuel l n (st st' : mem T * list (@thread T)) :
  nsteps (step fuel l) n st st' → (n + work st'.2 = work st.2)%nat.
Proof.
  induction 1 as [st|n st st1 st' Hs _ IH]; [done|].
  apply step_work in Hs. lia.
Qed.

Lemma work_spawn (progs : list (list T)) :
  work (spawn progs) = (8 * length (concat progs))%nat.
Proof.
  unfold work, spawn. induction progs as [|xs progs IH]; [done|].
  rewrite !fmap_cons. cbn [sum_list_with concat]. rewrite IH, length_app.
  unfold work_of. cbn [todo holding].
  assert (length (worker xs) = 4 * length xs)%nat as ->; [|lia].
  clear. induction xs as [|x xs IH]; [done|].
  rewrite worker_cons. cbn [length]. lia.
Qed.

Lemma run_schedule_nsteps fuel l schedule (st st' : mem T * list (@thread T)) :
  run_schedule fuel l schedule st = Some st' →
  nsteps (step fuel l) (length schedule) st st'.
Proof.
  revert st. induction schedule as [|i schedule IH]; intros st; cbn [run_schedule].
  - intros [= ->]. constructor.
  - destruct (sched_step fuel l i st) as [st1|] eqn:Hs; [|done].
    intros Hrun. eapply nsteps_l; [by exists i|by apply IH].
Qed.

(** C9: any number of workers, each looping over
    [Append(x); Delete(x); Insert(x); Delete(x)], run concurrently on a
    list that holds one sentinel element.  In every state that an
    interleaving reaches after [n] steps: the steps taken and the steps
    left add up to eight per loop iteration (so every interleaving ends),
    no thread crashes (its step returns, or it waits for the mutex), some
    thread can take a step as long as one has a call left, and once all
    have finished the list holds exactly the sentinel and satisfies the
    structural invariants.  The number of workers is below the loop
    budget and below [int_max]. *)
Theorem concurrent_workers_safe (fuel : nat) (l a : positive) (s : T) (m0 m : mem T)
    (progs : list (list T)) (ts : list (@thread T)) (n : nat) :
  is_list m0 l [(a, s)] →
  Z.of_nat (length progs) < int_max → (length progs + 1 < fuel)%nat →
  nsteps (step fuel l) n (m0, spawn progs) (m, ts) →
  (n + work ts = 8 * length (concat progs))%nat ∧
  (∀ t, t ∈ ts → thread_safe fuel l m t) ∧
  ((∃ t, t ∈ ts ∧ todo t ≠ []) → ∃ st', step fuel l (m, ts) st') ∧
  ((∀ t, t ∈ ts → todo t = []) →
     ∃ a', is_list m l [(a', s)] ∧
           traversal fuel (Some l) m = Returns [s] m ∧
           invariants m l).
Proof.
  intros Hr HN Hfuel Hn.
  pose proof (rtc_nsteps_2 _ _ _ Hn) as Hrtc.
  destruct (inv_rtc fuel l s (length progs) HN Hfuel _ _ Hrtc) as [Hinv HlenN].
  { by eapply inv_init. }
  { cbn [snd]. unfold spawn. by rewrite length_fmap. }
  cbn [snd] in HlenN. split_and!.
  - rewrite <- work_spawn. apply (nsteps_work _ _ _ _ _ Hn).
  - intros t Ht. by eapply inv_safe.
  - intros (t & Ht & Hne). by eapply inv_progress.
  - intros Hdone. destruct (inv_final l s _ _ Hinv Hdone) as (a' & Hr').
    exists a'. split_and!; [done| |by eapply is_list_invariants].
    rewrite (traversal_repr _ _ _ _ _ _ (proj1 Hr')); [done|cbn [length]; lia].
Qed.

End concurrency.

(** * The concrete instances are well formed, and the theorems apply *)

Lemma example_is_list : is_list example_mem 1%positive example_cells.
Proof.
  split; [|by vm_compute].
  exists (mkList (Some 3%positive) (Some 1%positive) 3 (Some RWMutex_free)).
  split; [by vm_compute|]. split; [|done].
  cbn [example_cells lseg fst snd List_head].
  split; [done|]. exists (Some 2%positive). split; [by vm_compute|].
  split; [done|]. exists (Some 1%positive). split; [by vm_compute|].
  split; [done|]. exists None. split; [by vm_compute|]. done.
Defined.

Lemma Insert_Append_error_iff_nil_witness :
  is_list example_mem 1%positive example_cells ∧
  ∃ e1 m1 e2 m2,
    List_Insert (Some 1%positive) 7 example_mem = Returns e1 m1 ∧
    List_Append (Some 1%positive) 7 example_mem = Returns e2 m2 ∧
    (e1 = Some InvalidHandle ↔ Some 1%positive = None) ∧
    (e2 = Some InvalidHandle ↔ Some 1%positive = None) ∧
    (Some 1%positive ≠ None ↔ e1 = None) ∧
    (Some 1%positive ≠ None ↔ e2 = None) ∧
    ∀ l, Some 1%positive = Some l →
      List_Length (Some 1%positive) example_mem
      = Returns (Z.of_nat (length example_cells)) example_mem ∧
      List_Length (Some 1%positive) m1 = Returns (Z.of_nat (length example_cells) + 1) m1 ∧
      List_Length (Some 1%positive) m2 = Returns (Z.of_nat (length example_cells) + 1) m2 ∧
      ∃ p1 p2, is_list m1 l ((p1, 7) :: example_cells) ∧
               is_list m2 l (example_cells ++ [(p2, 7)]).
Proof.
  split; [exact example_is_list|].
  apply (Insert_Append_error_iff_nil example_mem (Some 1%positive) example_cells 7).
  intros l Hl. injection Hl as <-. split; [exact example_is_list|by vm_compute].
Defined.

Lemma DeleteHead_DeleteTail_boundary_witness :
  is_list example_mem 1%positive example_cells ∧
  (∀ a v cs', example_cells = (a, v) :: cs' →
     ∃ m', List_DeleteHead (Some 1%positive) example_mem = Returns (v, true) m' ∧
           is_list m' 1%positive cs') ∧
  (∀ cs' a v, example_cells = cs' ++ [(a, v)] →
     ∃ m', List_DeleteTail 4 (Some 1%positive) example_mem = Returns (v, true) m' ∧
           is_list m' 1%positive cs').
Proof.
  split; [exact example_is_list|].
  apply (DeleteHead_DeleteTail_boundary example_mem 1%positive example_cells 4
           example_is_list).
  simpl. lia.
Defined.

Lemma Delete_correct_witness :
  is_list example_mem 1%positive example_cells ∧
  (∀ cs1 f cs2, example_cells = cs1 ++ (f, 3) :: cs2 → 3 ∉ cs1.*2 → 3 ∉ cs2.*2 →
     ∃ m', List_Delete 4 (Some 1%positive) 3 example_mem = Returns true m' ∧
           is_list m' 1%positive (cs1 ++ cs2) ∧
           traversal 4 (Some 1%positive) m' = Returns (cs1.*2 ++ cs2.*2) m') ∧
  (3 ∉ example_cells.*2 →
   List_Delete 4 (Some 1%positive) 3 example_mem = Returns false example_mem).
Proof.
  split; [exact example_is_list|].
  apply (Delete_correct example_mem 1%positive example_cells 3 4 example_is_list).
  simpl. lia.
Defined.

Lemma invariants_preserved_witness :
  ∃ l m', (list ← NewList; exec 10 list (take 9 example_ops);; mret list) mem_empty
          = Returns (Some l) m' ∧
          invariants m' l.
Proof.
  apply (invariants_preserved mem_empty example_ops 9 10).
  - simpl. lia.
  - by vm_compute.
Defined.

Lemma String_renders_witness :
  is_list example_mem 1%positive example_cells ∧
  List_String 4 (Some 1%positive) example_mem
  = Returns "Length: 3, Data: 1 3 4"%string example_mem.
Proof.
  split; [exact example_is_list|].
  destruct (String_renders example_mem 1%positive example_cells 4 example_is_list)
    as (_ & _ & Hs & _).
  - simpl. lia.
  - exact Hs.
Defined.

Lemma sentinel_is_list : is_list sentinel_mem 1%positive [(1%positive, 777)].
Proof.
  split; [|by vm_compute].
  exists (mkList (Some 1%positive) (Some 1%positive) 1 (Some RWMutex_free)).
  split; [by vm_compute|]. split; [|done].
  cbn [lseg fst snd List_head].
  split; [done|]. exists None. split; [by vm_compute|]. done.
Defined.

Lemma concurrent_workers_safe_witness :
  ∃ m ts,
    run_schedule 4 1%positive example_schedule (sentinel_mem, spawn example_progs)
    = Some (m, ts) ∧
    ts = [mkThread [] false; mkThread [] false] ∧
    (length example_schedule + work ts = 8 * length (concat example_progs))%nat ∧
    ∃ a', is_list m 1%positive [(a', 777)] ∧
          traversal 4 (Some 1%positive) m = Returns [777] m ∧
          invariants m 1%positive.
Proof.
  eexists _, _. split; [vm_compute; reflexivity|]. split; [reflexivity|].
  lazymatch goal with
  | |- _ ∧ (∃ a', is_list ?m _ _ ∧ _) =>
      destruct (concurrent_workers_safe 4 1%positive 1%positive 777 sentinel_mem m
                  example_progs [mkThread [] false; mkThread [] false]
                  (length example_schedule) sentinel_is_list)
        as (Hwork & _ & _ & Hfinal)
  end.
  - by vm_compute.
  - simpl. lia.
  - apply (run_schedule_nsteps 4 1%positive example_schedule). vm_compute. reflexivity.
  - split; [exact Hwork|]. apply Hfinal.
    intros t Ht. repeat (apply elem_of_cons in Ht as [->|Ht]; [done|]).
    by apply elem_of_nil in Ht.
Defined.

(** * Further properties of the methods *)

Section more.
Context {T : Type} `{!ListData T}.

Implicit Types (m : mem T) (l : positive) (cs : list (positive * T))
  (mu : RWMutex) (x v : T).

Lemma String_empty m l n fuel :
  repr m l [] n RWMutex_free → 0 ≤ n →
  List_String fuel (Some l) m = Returns (render n []) m.
Proof.
  intros Hr Hn.
  pose proof (repr_set_mux _ _ _ _ _ RWMutex_read Hr) as Hr'.
  unfold List_String.
  erewrite read_locked_spec; [|done| |done].
  - by erewrite locked_unchanged.
  - destruct Hr' as (L & Hl & Hseg & _ & Hlen & _). cbn [lseg] in Hseg.
    unfold get_List, make_slice. unfold mbind, M_bind, mret, M_ret.
    repeat (rewrite Hl; cbn beta iota).
    rewrite Hlen, Hseg. rewrite decide_False by lia.
    replace (String_loop fuel None [] (set_mux RWMutex_read l m))
      with (Returns (@nil T) (set_mux RWMutex_read l m)) by (by destruct fuel).
    rewrite Hl. cbn beta iota. by rewrite Hlen.
Qed.

(** X3: [NewList] returns a handle to a header that was not allocated
    before; the new list is empty and well formed ([Length] 0, [Head] and
    [Tail] nil, rendered as ["Length: 0, Data:"]), no node is touched and
    every other header is left as it was. *)
Theorem NewList_fresh_empty (m : mem T) (fuel : nat) :
  ∃ l m', NewList m = Returns (Some l) m' ∧
          lists m !! l = None ∧
          is_list m' l [] ∧
          nodes m' = nodes m ∧
          (∀ l', l' ≠ l → lists m' !! l' = lists m !! l') ∧
          List_Length (Some l) m' = Returns 0 m' ∧
          List_Head (Some l) m' = Returns None m' ∧
          List_Tail (Some l) m' = Returns None m' ∧
          List_String fuel (Some l) m' = Returns "Length: 0, Data:"%string m'.
Proof.
  destruct (NewList_spec m) as (l & m' & Hn & Hr & Hnodes).
  exists l, m'. pose proof Hn as Hn'. unfold NewList in Hn'.
  injection Hn' as Hl Hm'.
  split_and!.
  - done.
  - apply not_elem_of_dom. rewrite <- Hl. apply is_fresh.
  - by apply is_list_nil.
  - done.
  - intros l' Hne. rewrite <- Hm'. cbn [lists with_lists].
    rewrite lookup_insert_ne; [done|]. by rewrite Hl.
  - by eapply Length_repr.
  - by rewrite (Head_repr _ _ _ _ _ Hr).
  - by rewrite (Tail_repr _ _ _ _ _ Hr).
  - by rewrite (String_empty _ _ _ fuel Hr).
Qed.

(** X4: the methods without a nil guard panic on a nil handle:
    [Length], [Delete], [DeleteHead], [DeleteTail] and [ForEach]
    dereference the handle at once.  [String] has the guard and returns
    the empty text. *)
Theorem nil_handle_without_guard {S : Type} (m : mem T) (fuel : nat) (x : T)
    (f : T → S → S) (s : S) :
  List_Length None m = Panics ∧
  List_Delete fuel None x m = Panics ∧
  List_DeleteHead None m = Panics ∧
  List_DeleteTail fuel None m = Panics ∧
  List_ForEach fuel None f s m = Panics ∧
  List_String fuel None m = Returns ""%string m.
Proof. by split_and!. Qed.

(** X5: a header that was not made by [NewList] has a nil [mux] (the
    zero value [List[T]{}]): every method that takes the lock panics on
    it, while [Head], [Tail] and [Length], which take no lock, return. *)
Theorem zero_value_header_panics {S : Type} (m : mem T) (l : positive) (L : List)
    (fuel : nat) (x : T) (f : T → S → S) (s : S) :
  lists m !! l = Some L → List_mux L = None →
  List_Insert (Some l) x m = Panics ∧
  List_Append (Some l) x m = Panics ∧
  List_Find fuel (Some l) x m = Panics ∧
  List_Delete fuel (Some l) x m = Panics ∧
  List_DeleteHead (Some l) m = Panics ∧
  List_DeleteTail fuel (Some l) m = Panics ∧
  List_ForEach fuel (Some l) f s m = Panics ∧
  List_String fuel (Some l) m = Panics ∧
  List_Head (Some l) m = Returns (List_head L) m ∧
  List_Tail (Some l) m = Returns (List_tail L) m ∧
  List_Length (Some l) m = Returns (List_length L) m.
Proof.
  intros Hl Hmu.
  split_and!;
    unfold List_Insert, List_Append, List_Find, List_Delete, List_DeleteHead,
      List_DeleteTail, List_ForEach, List_String, List_Head, List_Tail,
      List_Length, deref_List, RWMutex_Lock, RWMutex_RLock, with_mux, get_List,
      mbind, M_bind, mret, M_ret;
    by rewrite Hl, ?Hmu.
Qed.

(** ** Nodes are never freed and their values never change *)

Lemma keeps_nodes_refl m : keeps_nodes m m.
Proof. intros q n Hq. eauto. Qed.

Lemma keeps_nodes_trans m1 m2 m3 :
  keeps_nodes m1 m2 → keeps_nodes m2 m3 → keeps_nodes m1 m3.
Proof.
  intros H12 H23 q n Hq. destruct (H12 _ _ Hq) as (n2 & Hq2 & Hv2).
  destruct (H23 _ _ Hq2) as (n3 & Hq3 & Hv3). exists n3. split; congruence.
Qed.

Lemma node_stable_ret {A} (a : A) : node_stable (mret a : M T A).
Proof. intros m a' m' [= _ <-]. apply keeps_nodes_refl. Qed.

Lemma node_stable_bind {A B} (c : M T A) (k : A → M T B) :
  node_stable c → (∀ a, node_stable (k a)) → node_stable (c ≫= k).
Proof.
  intros Hc Hk m b m' Hb. apply bind_inv_Returns in Hb as (a & m1 & Hc1 & Hk1).
  eapply keeps_nodes_trans; [by eapply Hc|by eapply Hk].
Qed.

Lemma node_stable_fail {A} (c : M T A) :
  (∀ m a m', c m ≠ Returns a m') → node_stable c.
Proof. intros Hc m a m' Hr. by destruct (Hc m a m'). Qed.

Lemma node_stable_get_List l : node_stable (get_List l : M T List).
Proof.
  intros m L m'. unfold get_List. destruct (lists m !! l); [|done].
  intros [= _ <-]. apply keeps_nodes_refl.
Qed.

Lemma node_stable_get_ListNode p : node_stable (get_ListNode p : M T (ListNode T)).
Proof.
  intros m n m'. unfold get_ListNode. destruct (nodes m !! p); [|done].
  intros [= _ <-]. apply keeps_nodes_refl.
Qed.

Lemma node_stable_modify_List l (f : List → List) : node_stable (modify_List l f : M T unit).
Proof.
  intros m u m'. unfold modify_List. destruct (lists m !! l); [|done].
  intros Heq q n Hq. simplify_eq. exists n. split; [exact Hq|done].
Qed.

Lemma node_stable_with_mux l k : node_stable (with_mux l k : M T unit).
Proof.
  intros m u m'. unfold with_mux. repeat case_match; try done.
  intros Heq q n Hq. simplify_eq. exists n. split; [exact Hq|done].
Qed.

Lemma node_stable_set_next p (q : option positive) : node_stable (set_next p q : M T unit).
Proof.
  intros m u m'. unfold set_next. destruct (nodes m !! p) as [n|] eqn:Hp; [|done].
  intros Heq a na Ha. simplify_eq. cbn [nodes with_nodes].
  destruct (decide (a = p)) as [->|Hne].
  - rewrite lookup_insert_eq. eexists. split; [done|]. cbn. congruence.
  - rewrite lookup_insert_ne by done. eauto.
Qed.

Lemma node_stable_new_ListNode (n : ListNode T) : node_stable (new_ListNode n).
Proof.
  intros m p m'. unfold new_ListNode. intros Heq a na Ha. simplify_eq.
  cbn [nodes with_nodes]. rewrite lookup_insert_ne; [eauto|].
  intros <-. apply (is_fresh (dom (nodes m))). apply elem_of_dom. eauto.
Qed.

Lemma node_stable_deref_List (list : option positive) : node_stable (deref_List list : M T positive).
Proof.
  destruct list; [apply node_stable_ret|]. by apply node_stable_fail.
Qed.

Ltac node_stable_step :=
  first
    [ apply node_stable_ret
    | apply node_stable_get_List
    | apply node_stable_get_ListNode
    | apply node_stable_modify_List
    | apply node_stable_with_mux
    | apply node_stable_set_next
    | apply node_stable_new_ListNode
    | apply node_stable_deref_List
    | apply node_stable_bind; [|intros ?]
    | by apply node_stable_fail
    | case_match ].

Ltac node_stable_tac :=
  unfold defer, set_head, set_tail, incr_length, decr_length,
    RWMutex_Lock, RWMutex_Unlock, RWMutex_RLock, RWMutex_RUnlock;
  repeat node_stable_step.

Lemma node_stable_findParent_loop fuel x (lastNode currentNode : option positive) :
  node_stable (findParent_loop fuel x lastNode currentNode).
Proof.
  revert lastNode currentNode.
  induction fuel as [|fuel IH]; intros lastNode [c|]; cbn [findParent_loop];
    node_stable_tac; apply IH.
Qed.

Lemma node_stable_DeleteTail_loop fuel l (parent node : option positive) :
  node_stable (DeleteTail_loop fuel l parent node : M T (option positive)).
Proof.
  revert parent node.
  induction fuel as [|fuel IH]; intros parent [c|]; cbn [DeleteTail_loop];
    node_stable_tac; apply IH.
Qed.

Lemma node_stable_critical_section fuel l (o : @op T) :
  node_stable (critical_section fuel l o).
Proof.
  destruct o; unfold critical_section, Insert_locked, Append_locked, Delete_locked,
    DeleteHead_locked, DeleteTail_locked, List_findParent;
    node_stable_tac;
    first [apply node_stable_findParent_loop | apply node_stable_DeleteTail_loop].
Qed.

Lemma node_stable_exec_op fuel (list : option positive) (o : @op T) :
  node_stable (exec_op fuel list o).
Proof.
  destruct list as [l|].
  - assert (node_stable (RWMutex_Lock l;;
              defer (RWMutex_Unlock l) (critical_section fuel l o))) as Hs.
    { node_stable_tac. apply node_stable_critical_section. }
    intros m u m' He. rewrite exec_op_critical_section in He. by eapply Hs.
  - destruct o; first [by apply node_stable_fail | unfold exec_op; node_stable_tac].
Qed.

Lemma node_stable_exec fuel (list : option positive) (ops : Datatypes.list (@op T)) :
  node_stable (exec fuel list ops).
Proof.
  induction ops as [|o ops IH]; cbn [exec]; [apply node_stable_ret|].
  apply node_stable_bind; [apply node_stable_exec_op|done].
Qed.

(** X13: no method frees a node or overwrites a stored value.  A node
    reference that yields [(v, true)] from [Value] still yields [(v, true)]
    after any sequence of [Insert], [Append], [Delete], [DeleteHead] and
    [DeleteTail] calls that returns, whatever the heap and the handle. *)
Theorem node_values_are_stable (m m' : mem T) (fuel : nat) (list q : option positive)
    (ops : Datatypes.list (@op T)) (v : T) :
  ListNode_Value q m = Returns (v, true) m →
  exec fuel list ops m = Returns () m' →
  ListNode_Value q m' = Returns (v, true) m'.
Proof.
  intros Hv He. destruct q as [q|]; [|done].
  unfold ListNode_Value, get_ListNode, mbind, M_bind, mret, M_ret in *.
  destruct (nodes m !! q) as [n|] eqn:Hq; [|done].
  destruct (node_stable_exec fuel list ops _ _ _ He _ _ Hq) as (n' & -> & Hn').
  injection Hv as Hv. by rewrite Hn', Hv.
Qed.

(** [Delete] of the value in the first node and [DeleteHead] run the same
    stores. *)
Lemma Delete_locked_head m l a x cs n mu fuel :
  repr m l ((a, x) :: cs) n mu →
  ∃ m1, Delete_locked (S fuel) l x m = Returns true m1 ∧
        DeleteHead_locked l m = Returns (x, true) m1.
Proof.
  intros (L & Hl & Hseg & Htl & _).
  pose proof (lseg_nil_NoDup _ _ _ Hseg) as Hnd.
  destruct m as [h ls]. cbn [nodes lists lseg fst snd] in *.
  destruct Hseg as (Hhd & nx & Ha & Hseg).
  destruct cs as [|[b w] cs].
  - cbn [lseg] in Hseg. subst nx. cbn [fmap list_fmap last fst] in Htl.
    eexists. split.
    + unfold Delete_locked, List_findParent. cbn [findParent_loop]. mrun.
    + unfold DeleteHead_locked. mrun.
  - pose proof Hseg as Hseg'. cbn [lseg fst] in Hseg'. destruct Hseg' as (-> & _).
    assert (List_tail L ≠ Some a) as Htf.
    { rewrite Htl. rewrite !fmap_cons in *. cbn [fst] in *.
      intros Heq. apply NoDup_cons in Hnd as (Hnd & _). apply Hnd.
      rewrite last_cons_cons in Heq. by apply last_Some_elem_of in Heq. }
    eexists. split.
    + unfold Delete_locked, List_findParent. cbn [findParent_loop]. mrun.
    + unfold DeleteHead_locked. mrun.
Qed.

(** X12: on a well-formed non-empty list, [Delete] of the value held by
    the first node does exactly what [DeleteHead] does: both return
    success and leave the identical heap, in which the list is the rest. *)
Theorem Delete_of_head_value_is_DeleteHead (m : mem T) (l a : positive) (x : T)
    (cs : list (positive * T)) (fuel : nat) :
  is_list m l ((a, x) :: cs) → (0 < fuel)%nat →
  ∃ m', List_Delete fuel (Some l) x m = Returns true m' ∧
        List_DeleteHead (Some l) m = Returns (x, true) m' ∧
        is_list m' l cs.
Proof.
  intros Hr Hf. destruct fuel as [|fuel]; [lia|].
  destruct (DeleteHead_is_list _ _ _ _ _ Hr) as (m' & Hd & Hr').
  exists m'. split_and!; [|done..].
  destruct Hr as [Hr _].
  pose proof (repr_set_mux _ _ _ _ _ RWMutex_held Hr) as Hrh.
  destruct (Delete_locked_head _ _ _ _ _ _ _ fuel Hrh) as (m1 & Hdel & Hdh).
  destruct (DeleteHead_locked_cons _ _ _ _ _ _ _ Hrh) as (m2 & Hdh' & Hr2).
  assert (m2 = m1) as -> by congruence.
  unfold List_DeleteHead, deref_List in Hd. rewrite (bind_Returns _ _ m m l) in Hd by done.
  rewrite (write_locked_spec _ _ _ _ _ _ _ _ _ Hr Hdh Hr2) in Hd.
  unfold List_Delete, deref_List. rewrite (bind_Returns _ _ m m l) by done.
  rewrite (write_locked_spec _ _ _ _ _ _ _ _ _ Hr Hdel Hr2). congruence.
Qed.

Lemma DeleteTail_locked_single m l a x n mu fuel :
  repr m l [(a, x)] n mu →
  ∃ m1, DeleteTail_locked (S (S fuel)) l m = Returns (x, true) m1 ∧
        DeleteHead_locked l m = Returns (x, true) m1.
Proof.
  intros (L & Hl & Hseg & Htl & _).
  destruct m as [h ls]. cbn [nodes lists lseg fst snd] in *.
  destruct Hseg as (Hhd & nx & Ha & ->). cbn [fmap list_fmap last fst] in Htl.
  eexists. split.
  - unfold DeleteTail_locked. cbn [DeleteTail_loop]. unfold_M.
    repeat (progress (mstep; simpl; rewrite ?Htl)). reflexivity.
  - unfold DeleteHead_locked. mrun.
Qed.

(** X2: deleting the only element, through [Delete], [DeleteHead] or
    [DeleteTail], gives the same heap each time: the list is empty
    ([Head] and [Tail] nil, [Length] 0) and the node itself is still
    allocated. *)
Theorem single_element_collapse (m : mem T) (l a : positive) (x : T) (fuel : nat) :
  is_list m l [(a, x)] → (1 < fuel)%nat →
  ∃ m', List_Delete fuel (Some l) x m = Returns true m' ∧
        List_DeleteHead (Some l) m = Returns (x, true) m' ∧
        List_DeleteTail fuel (Some l) m = Returns (x, true) m' ∧
        is_list m' l [] ∧
        List_Head (Some l) m' = Returns None m' ∧
        List_Tail (Some l) m' = Returns None m' ∧
        List_Length (Some l) m' = Returns 0 m' ∧
        ListNode_Value (Some a) m' = Returns (x, true) m'.
Proof.
  intros Hr Hf. destruct fuel as [|[|fuel]]; [lia..|].
  destruct Hr as [Hr Hb].
  pose proof (repr_set_mux _ _ _ _ _ RWMutex_held Hr) as Hrh.
  destruct (Delete_locked_head _ _ _ _ _ _ _ (S fuel) Hrh) as (m1 & Hdel & Hdh).
  destruct (DeleteTail_locked_single _ _ _ _ _ _ fuel Hrh) as (m2 & Hdt & Hdh').
  destruct (DeleteHead_locked_cons _ _ _ _ _ _ _ Hrh) as (m3 & Hdh'' & Hr3).
  assert (m2 = m1) as -> by congruence. assert (m3 = m1) as -> by congruence.
  assert (is_list (set_mux RWMutex_free l m1) l []) as Hr'.
  { eapply (is_list_shrink _ _ [(a, x)]); [by eapply repr_set_mux|done..]. }
  exists (set_mux RWMutex_free l m1). split_and!.
  - unfold List_Delete, deref_List. rewrite (bind_Returns _ _ m m l) by done.
    by rewrite (write_locked_spec _ _ _ _ _ _ _ _ _ Hr Hdel Hr3).
  - unfold List_DeleteHead, deref_List. rewrite (bind_Returns _ _ m m l) by done.
    by rewrite (write_locked_spec _ _ _ _ _ _ _ _ _ Hr Hdh Hr3).
  - unfold List_DeleteTail, deref_List. rewrite (bind_Returns _ _ m m l) by done.
    by rewrite (write_locked_spec _ _ _ _ _ _ _ _ _ Hr Hdt Hr3).
  - done.
  - by rewrite (Head_repr _ _ _ _ _ (proj1 Hr')).
  - by rewrite (Tail_repr _ _ _ _ _ (proj1 Hr')).
  - by rewrite (Length_repr _ _ _ _ _ (proj1 Hr')).
  - assert (List_DeleteHead (Some l) m
            = Returns (x, true) (set_mux RWMutex_free l m1)) as HDH.
    { unfold List_DeleteHead, deref_List. rewrite (bind_Returns _ _ m m l) by done.
      by rewrite (write_locked_spec _ _ _ _ _ _ _ _ _ Hr Hdh Hr3). }
    assert (exec_op (S (S fuel)) (Some l) Op_DeleteHead m
            = Returns () (set_mux RWMutex_free l m1)) as He.
    { unfold exec_op. by rewrite (bind_Returns _ _ _ _ _ HDH). }
    destruct Hr as (L & Hl & Hseg & _). cbn [lseg fst snd] in Hseg.
    destruct Hseg as (_ & nx & Ha & _).
    destruct (node_stable_exec_op _ _ _ _ _ _ He _ _ Ha) as (n' & Ha' & Hv).
    unfold ListNode_Value. unfold_M. rewrite Ha'. by rewrite Hv.
Qed.

(** ** The lock discipline *)

(** X6: while a writer holds the mutex of a list, every method that
    takes the lock blocks, the readers [Find], [ForEach] and [String]
    included; [Head], [Tail] and [Length] take no lock and return what the
    header holds. *)
Theorem writer_excludes_all {S : Type} (m : mem T) (l : positive)
    (cs : list (positive * T)) (n : Z) (fuel : nat) (x : T) (f : T → S → S) (s : S) :
  repr m l cs n RWMutex_held →
  List_Insert (Some l) x m = Blocks ∧
  List_Append (Some l) x m = Blocks ∧
  List_Delete fuel (Some l) x m = Blocks ∧
  List_DeleteHead (Some l) m = Blocks ∧
  List_DeleteTail fuel (Some l) m = Blocks ∧
  List_Find fuel (Some l) x m = Blocks ∧
  List_ForEach fuel (Some l) f s m = Blocks ∧
  List_String fuel (Some l) m = Blocks ∧
  List_Head (Some l) m = Returns (head cs.*1) m ∧
  List_Tail (Some l) m = Returns (last cs.*1) m ∧
  List_Length (Some l) m = Returns n m.
Proof.
  intros Hr. split_and!;
    [ destruct Hr as (L & Hl & _ & _ & _ & Hmu);
      unfold List_Insert, List_Append, List_Find, List_Delete, List_DeleteHead,
        List_DeleteTail, List_ForEach, List_String, deref_List, RWMutex_Lock,
        RWMutex_RLock, with_mux, mbind, M_bind, mret, M_ret;
      by rewrite Hl, Hmu .. | | | ].
  - by rewrite (Head_repr _ _ _ _ _ Hr).
  - by rewrite (Tail_repr _ _ _ _ _ Hr).
  - by eapply Length_repr.
Qed.




(** ** How the methods compose *)

(** X8: round trips.  What one end takes in, the same end gives back, and the
    list is again the cells it was (stack behaviour at each end); what goes
    in at the tail comes out at the head after the elements before it
    (queue behaviour). *)
Theorem insert_delete_round_trips (m : mem T) (l : positive)
    (cs : list (positive * T)) (x : T) (fuel : nat) :
  is_list m l cs → Z.of_nat (length cs) < int_max → (length cs + 1 < fuel)%nat →
  (∃ m1 m2, List_Insert (Some l) x m = Returns None m1 ∧
            List_DeleteHead (Some l) m1 = Returns (x, true) m2 ∧
            is_list m2 l cs) ∧
  (∃ m1 m2, List_Append (Some l) x m = Returns None m1 ∧
            List_DeleteTail fuel (Some l) m1 = Returns (x, true) m2 ∧
            is_list m2 l cs) ∧
  (∀ a v cs', cs = (a, v) :: cs' →
     ∃ p m1 m2, List_Append (Some l) x m = Returns None m1 ∧
                List_DeleteHead (Some l) m1 = Returns (v, true) m2 ∧
                is_list m2 l (cs' ++ [(p, x)])) ∧
  (∀ cs' a v, cs = cs' ++ [(a, v)] →
     ∃ p m1 m2, List_Insert (Some l) x m = Returns None m1 ∧
                List_DeleteTail fuel (Some l) m1 = Returns (v, true) m2 ∧
                is_list m2 l ((p, x) :: cs')).
Proof.
  intros Hr Hb Hf.
  destruct (Insert_is_list _ _ _ x Hr Hb) as (p1 & m1 & Hi & Hr1).
  destruct (Append_is_list _ _ _ x Hr Hb) as (p2 & m2 & Ha & Hr2).
  split_and!.
  - destruct (DeleteHead_is_list _ _ _ _ _ Hr1) as (m' & Hd & Hr').
    by exists m1, m'.
  - destruct (DeleteTail_is_list _ _ _ _ _ fuel Hr2) as (m' & Hd & Hr'); [lia|].
    by exists m2, m'.
  - intros a v cs' ->. cbn [app] in Hr2.
    destruct (DeleteHead_is_list _ _ _ _ _ Hr2) as (m' & Hd & Hr').
    by exists p2, m2, m'.
  - intros cs' a v ->. rewrite length_app in Hf. cbn [length] in Hf.
    destruct (DeleteTail_is_list m1 l ((p1, x) :: cs') a v fuel) as (m' & Hd & Hr');
      [done|cbn [length]; lia|].
    by exists p1, m1, m'.
Qed.

(** The cell at position [i] of a chain: its node holds the value and
    points to the next cell. *)
Lemma lseg_lookup (h : gmap positive (ListNode T)) p cs (i : nat) a v :
  lseg h p None cs → cs !! i = Some (a, v) →
  h !! a = Some (mkListNode v (fst <$> cs !! S i)).
Proof.
  revert p i. induction cs as [|[b w] cs IH]; intros p i Hseg Hi; [done|].
  cbn [lseg fst snd] in Hseg. destruct Hseg as (-> & nx & Hb & Hseg).
  destruct i as [|i].
  - injection Hi as -> ->. rewrite Hb. do 2 f_equal.
    destruct cs as [|[c u] cs]; cbn [lseg fst] in Hseg; [done|].
    by destruct Hseg as (-> & _).
  - by eapply IH.
Qed.

Lemma Value_Next_cell m l cs n mu (i : nat) a v :
  repr m l cs n mu → cs !! i = Some (a, v) →
  ListNode_Value (Some a) m = Returns (v, true) m ∧
  ListNode_Next (Some a) m = Returns (fst <$> cs !! S i) m.
Proof.
  intros (L & _ & Hseg & _) Hi.
  pose proof (lseg_lookup _ _ _ _ _ _ Hseg Hi) as Ha.
  unfold ListNode_Value, ListNode_Next. unfold_M. by rewrite Ha.
Qed.

(** X1: through a handle to a well-formed list, [Find(x)] returns the
    first node, in head-to-tail order, that holds [x]: the node is in the
    chain, its [Value] is [x], and no node before it holds [x].  It returns
    nil exactly when no node holds [x] (on the empty list in particular).
    In both cases the heap is left as it was. *)
Theorem Find_returns_first_match (m : mem T) (l : positive) (cs : list (positive * T))
    (x : T) (fuel : nat) :
  is_list m l cs → (length cs < fuel)%nat →
  ∃ found, List_Find fuel (Some l) x m = Returns found m ∧
           (found = None ↔ x ∉ cs.*2) ∧
           (∀ f, found = Some f →
              ListNode_Value found m = Returns (x, true) m ∧
              ∃ cs1 cs2, cs = cs1 ++ (f, x) :: cs2 ∧ x ∉ cs1.*2).
Proof.
  intros [Hr _] Hf. destruct (decide (x ∈ cs.*2)) as [Hin|Hnin].
  - apply first_occurrence in Hin as (cs1 & f & cs2 & -> & Hx).
    rewrite length_app in Hf. cbn [length] in Hf.
    exists (Some f). split_and!.
    + apply (Find_found _ _ cs1 f cs2 _ _ fuel Hr Hx). lia.
    + split; [done|]. intros Hn. destruct Hn. rewrite fmap_app, fmap_cons.
      apply elem_of_app. right. left.
    + intros ? [= <-]. split; [|eauto].
      apply (Value_Next_cell _ _ _ _ _ (length cs1) f x Hr).
      by rewrite lookup_app_r, Nat.sub_diag by lia.
  - exists None. split_and!; [by eapply Find_absent|done|done].
Qed.

(** X9: what [Insert] stores is what the accessors then show.  After
    [Insert(x)] on a well-formed list, [Head] is a node that was not
    allocated before, its [Value] is [x], its [Next] is the old head,
    [Find(x)] returns it, [Tail] is the old tail (the new node when the list
    was empty) and [Length] is one more. *)
Theorem Insert_then_observe (m : mem T) (l : positive) (cs : list (positive * T))
    (x : T) (fuel : nat) :
  is_list m l cs → Z.of_nat (length cs) < int_max → (0 < fuel)%nat →
  ∃ p m', List_Insert (Some l) x m = Returns None m' ∧
          nodes m !! p = None ∧
          List_Head (Some l) m' = Returns (Some p) m' ∧
          ListNode_Value (Some p) m' = Returns (x, true) m' ∧
          ListNode_Next (Some p) m' = Returns (head cs.*1) m' ∧
          List_Find fuel (Some l) x m' = Returns (Some p) m' ∧
          List_Tail (Some l) m' = Returns (Some (default p (last cs.*1))) m' ∧
          List_Length (Some l) m' = Returns (Z.of_nat (length cs) + 1) m'.
Proof.
  intros [Hr _] Hb Hf.
  destruct (Insert_locked_spec (set_mux RWMutex_held l m) l cs
              (Z.of_nat (length cs)) RWMutex_held x)
    as (p & m1 & Hbody & Hfresh & Hr1); [by eapply repr_set_mux|].
  rewrite set_mux_nodes in Hfresh.
  pose proof (repr_set_mux _ _ _ _ _ RWMutex_free Hr1) as Hr'.
  rewrite int_wrap_id in Hr' by (unfold int_min, int_max in *; lia).
  exists p, (set_mux RWMutex_free l m1). split_and!.
  - by eapply write_locked_spec.
  - by apply not_elem_of_dom.
  - by rewrite (Head_repr _ _ _ _ _ Hr').
  - by apply (Value_Next_cell _ _ _ _ _ 0 p x Hr').
  - destruct (Value_Next_cell _ _ _ _ _ 0 p x Hr' eq_refl) as [_ ->].
    by destruct cs.
  - apply (Find_found _ _ [] p cs _ _ fuel Hr'); [apply not_elem_of_nil|simpl; lia].
  - rewrite (Tail_repr _ _ _ _ _ Hr'). rewrite fmap_cons, last_cons.
    by destruct (last cs.*1).
  - by eapply Length_repr.
Qed.

(** X10: what [Append] stores is what the accessors then show.  After
    [Append(x)] on a well-formed list, [Tail] is a node that was not
    allocated before, its [Value] is [x] and its [Next] is nil, [Head] is
    the old head (the new node when the list was empty), [Length] is one
    more, and [Find(x)] returns the new node when no element was [x]. *)
Theorem Append_then_observe (m : mem T) (l : positive) (cs : list (positive * T))
    (x : T) (fuel : nat) :
  is_list m l cs → Z.of_nat (length cs) < int_max → (length cs < fuel)%nat →
  ∃ p m', List_Append (Some l) x m = Returns None m' ∧
          nodes m !! p = None ∧
          List_Tail (Some l) m' = Returns (Some p) m' ∧
          ListNode_Value (Some p) m' = Returns (x, true) m' ∧
          ListNode_Next (Some p) m' = Returns None m' ∧
          List_Head (Some l) m' = Returns (Some (default p (head cs.*1))) m' ∧
          List_Length (Some l) m' = Returns (Z.of_nat (length cs) + 1) m' ∧
          (x ∉ cs.*2 → List_Find fuel (Some l) x m' = Returns (Some p) m').
Proof.
  intros [Hr _] Hb Hf.
  destruct (Append_locked_spec (set_mux RWMutex_held l m) l cs
              (Z.of_nat (length cs)) RWMutex_held x)
    as (p & m1 & Hbody & Hfresh & Hr1); [by eapply repr_set_mux|].
  rewrite set_mux_nodes in Hfresh.
  pose proof (repr_set_mux _ _ _ _ _ RWMutex_free Hr1) as Hr'.
  rewrite int_wrap_id in Hr' by (unfold int_min, int_max in *; lia).
  assert ((cs ++ [(p, x)]) !! length cs = Some (p, x)) as Hi.
  { by rewrite lookup_app_r, Nat.sub_diag by lia. }
  exists p, (set_mux RWMutex_free l m1). split_and!.
  - by eapply write_locked_spec.
  - by apply not_elem_of_dom.
  - rewrite (Tail_repr _ _ _ _ _ Hr'). rewrite fmap_app. cbn [fmap list_fmap fst].
    by rewrite last_snoc.
  - by apply (Value_Next_cell _ _ _ _ _ _ p x Hr' Hi).
  - destruct (Value_Next_cell _ _ _ _ _ _ p x Hr' Hi) as [_ ->].
    rewrite lookup_ge_None_2; [done|]. rewrite length_app. simpl. lia.
  - rewrite (Head_repr _ _ _ _ _ Hr'). by destruct cs.
  - by eapply Length_repr.
  - intros Hx. by apply (Find_found _ _ cs p [] _ _ fuel Hr').
Qed.

(** X11: [Delete(x)] unlinks exactly the node that [Find(x)] returns, the
    first one holding [x].  Afterwards [Find(x)] returns the next node that
    holds [x], or nil when there is none; the unlinked node stays
    allocated and still yields [x]. *)
Theorem Delete_unlinks_what_Find_returns (m : mem T) (l f : positive)
    (cs1 cs2 : list (positive * T)) (x : T) (fuel : nat) :
  is_list m l (cs1 ++ (f, x) :: cs2) → x ∉ cs1.*2 →
  (length (cs1 ++ (f, x) :: cs2) < fuel)%nat →
  ∃ m', List_Find fuel (Some l) x m = Returns (Some f) m ∧
        List_Delete fuel (Some l) x m = Returns true m' ∧
        is_list m' l (cs1 ++ cs2) ∧
        ListNode_Value (Some f) m' = Returns (x, true) m' ∧
        (x ∉ cs2.*2 → List_Find fuel (Some l) x m' = Returns None m') ∧
        (∀ cs3 g cs4, cs2 = cs3 ++ (g, x) :: cs4 → x ∉ cs3.*2 →
           List_Find fuel (Some l) x m' = Returns (Some g) m').
Proof.
  intros Hr Hx Hf. rewrite length_app in Hf. cbn [length] in Hf.
  destruct (Delete_is_list _ _ _ _ _ _ fuel Hr Hx) as (m' & Hd & Hr'); [lia|].
  exists m'. split_and!.
  - apply (Find_found _ _ cs1 f cs2 _ _ fuel (proj1 Hr) Hx). lia.
  - done.
  - done.
  - assert (exec_op fuel (Some l) (Op_Delete x) m = Returns () m') as He.
    { unfold exec_op. by rewrite (bind_Returns _ _ _ _ _ Hd). }
    destruct (Value_Next_cell _ _ _ _ _ (length cs1) f x (proj1 Hr)) as [Hv _].
    { by rewrite lookup_app_r, Nat.sub_diag by lia. }
    unfold ListNode_Value, get_ListNode, mbind, M_bind, mret, M_ret in *.
    destruct (nodes m !! f) as [nf|] eqn:Hnf; [|done].
    destruct (node_stable_exec_op _ _ _ _ _ _ He _ _ Hnf) as (n' & -> & Hn').
    injection Hv as Hv. by rewrite Hn', Hv.
  - intros Hx2. apply (Find_absent _ _ _ _ _ fuel (proj1 Hr')).
    + rewrite fmap_app. by intros [?|?]%elem_of_app.
    + rewrite length_app. lia.
  - intros cs3 g cs4 -> Hx3. rewrite app_assoc in Hr'.
    apply (Find_found _ _ (cs1 ++ cs3) g cs4 _ _ fuel (proj1 Hr')).
    + rewrite fmap_app. by intros [?|?]%elem_of_app.
    + rewrite !length_app in *. lia.
Qed.

(** ** The test helper [listAssert] *)

Lemma listAssert_loop_spec m cs (rest : list T) (i : Z) (t : list (@report T))
    (failed : bool) (parent cur : option positive) :
  lseg (nodes m) cur None cs →
  ∃ t' failed',
    listAssert_loop rest i t failed parent cur m
    = Returns (t', failed', from_option Some parent (last (take (length rest) cs).*1)) m ∧
    (∀ e, e ∈ t → e ∈ t') ∧
    (take (length rest) cs.*2 = take (length cs) rest → t' = t ∧ failed' = failed) ∧
    (take (length rest) cs.*2 ≠ take (length cs) rest →
       failed' = true ∧ ∃ e, e ∈ t' ∧ is_error e = true).
Proof.
  revert rest i t failed parent cur.
  induction cs as [|[a v] cs IH]; intros rest i t failed parent cur Hseg.
  { cbn [lseg] in Hseg. subst cur. exists t, failed.
    cbn [fmap list_fmap length take]. rewrite !take_nil.
    split_and!; [by destruct rest|done..]. }
  cbn [lseg fst snd] in Hseg. destruct Hseg as (-> & nx & Ha & Hseg).
  destruct rest as [|e rest].
  { exists t, failed. cbn [length take]. rewrite take_0. split_and!; done. }
  cbn [listAssert_loop]. unfold ListNode_Value, ListNode_Next. unfold_M.
  cbn beta iota. rewrite Ha. cbn [ListNode_value ListNode_next length take].
  rewrite !fmap_cons. cbn [take fst snd].
  assert (from_option Some parent (last (a :: (take (length rest) cs).*1))
          = from_option Some (Some a) (last (take (length rest) cs).*1)) as Hpar.
  { rewrite last_cons. by destruct (last _). }
  rewrite Hpar.
  destruct (decide (v ≠ e)) as [Hne|Heq]; cbn beta iota; rewrite Ha;
    cbn [ListNode_value ListNode_next].
  - destruct (IH rest (int_wrap (i + 1)) (t ++ [Error_value i v]) true (Some a) nx Hseg)
      as (t' & failed' & -> & Hsub & Hsame & Hdiff).
    exists t', failed'. split_and!; [done|..].
    + intros e' He'. apply Hsub. apply elem_of_app. by left.
    + intros [= ? _]. done.
    + intros _.
      assert (Error_value i v ∈ t') as Hin.
      { apply Hsub. apply elem_of_app. right. left. }
      destruct (decide (take (length rest) cs.*2 = take (length cs) rest)) as [Hs|Hd].
      * destruct (Hsame Hs) as [_ ->]. eauto.
      * destruct (Hdiff Hd) as [-> _]. eauto.
  - apply dec_stable in Heq. subst e.
    destruct (IH rest (int_wrap (i + 1)) t failed (Some a) nx Hseg)
      as (t' & failed' & -> & Hsub & Hsame & Hdiff).
    exists t', failed'. split_and!; [done..| |].
    + intros [= Hs]. by apply Hsame.
    + intros Hd. apply Hdiff. congruence.
Qed.

Lemma listAssert_tail_spec m l cs n mu (t : list (@report T)) (parent : option positive) :
  repr m l cs n mu →
  ∃ t', listAssert_tail t (Some l) parent m = Returns t' m ∧
        (∀ e, e ∈ t → e ∈ t') ∧
        (parent = last cs.*1 → t' = t).
Proof.
  intros Hr. pose proof (Tail_repr _ _ _ _ _ Hr) as Htl.
  unfold listAssert_tail. destruct parent as [p|]; [|by exists t].
  rewrite (bind_Returns _ _ _ _ _ Htl).
  destruct (last cs.*1) as [tl|] eqn:Hlast.
  - rewrite (bind_Returns _ _ _ _ _ Htl). destruct (decide (Some p ≠ Some tl)) as [Hne|Heq].
    + rewrite (bind_Returns _ _ _ _ _ Htl). eexists. split_and!; [done| |done].
      intros e He. apply elem_of_app. by left.
    + by exists t.
  - eexists. split_and!; [done| |done].
    intros e He. apply elem_of_app. by left.
Qed.

Lemma listAssert_log_spec m l cs n fuel (t : list (@report T)) (values : list T)
    (failed : bool) :
  repr m l cs n RWMutex_free → 0 ≤ n → (length cs < fuel)%nat →
  ∃ t', listAssert_log fuel t (Some l) values failed m = Returns t' m ∧
        (∀ e, e ∈ t → e ∈ t') ∧
        (failed = false → t' = t).
Proof.
  intros Hr Hn Hf. unfold listAssert_log. destruct failed; [|by exists t].
  rewrite (bind_Returns _ _ _ _ _ (String_repr _ _ _ _ _ Hr Hn Hf)).
  eexists. split_and!; [done| |done].
  intros e He. apply elem_of_app. by left.
Qed.

(** X14: on a well-formed list the test helper [listAssert] is a sound
    and complete oracle.  It returns without touching the heap; it
    reports nothing at all when the list holds exactly the expected
    values, in order, and it reports at least one failure otherwise.  On a
    nil handle it reports one failure and returns. *)
Theorem listAssert_is_an_oracle (m : mem T) (l : positive) (cs : list (positive * T))
    (values : list T) (fuel : nat) :
  is_list m l cs → (length cs < fuel)%nat →
  listAssert fuel [] None values m = Returns [Error_no_list] m ∧
  ∃ t, listAssert fuel [] (Some l) values m = Returns t m ∧
       (cs.*2 = values → t = []) ∧
       (cs.*2 ≠ values → ∃ e, e ∈ t ∧ is_error e = true).
Proof.
  intros [Hr Hb] Hf. split; [done|].
  pose proof (Length_repr _ _ _ _ _ Hr) as Hlen.
  pose proof (Head_repr _ _ _ _ _ Hr) as Hhd.
  pose proof Hr as (L & Hl & Hseg & _).
  assert (List_Head (Some l) m = Returns (List_head L) m) as Hhd'.
  { unfold List_Head. unfold_M. by rewrite Hl. }
  unfold listAssert. rewrite (bind_Returns _ _ _ _ _ Hlen).
  set (t0 := if decide (Z.of_nat (length cs) ≠ Z.of_nat (length values))
             then [Error_length (Z.of_nat (length values)) (Z.of_nat (length cs))]
             else @nil (@report T)).
  assert ((if decide (Z.of_nat (length cs) ≠ Z.of_nat (length values))
           then n ← List_Length (Some l);
                mret ([] ++ [Error_length (Z.of_nat (length values)) n])
           else mret []) m = Returns t0 m) as Ht0.
  { unfold t0. destruct (decide _); [|done]. by rewrite (bind_Returns _ _ _ _ _ Hlen). }
  rewrite (bind_Returns _ _ _ _ _ Ht0). rewrite (bind_Returns _ _ _ _ _ Hhd').
  destruct (listAssert_loop_spec m cs values 0 t0 false None _ Hseg)
    as (t1 & failed & Hloop & Hsub1 & Hsame & Hdiff).
  rewrite (bind_Returns _ _ _ _ _ Hloop).
  destruct (listAssert_tail_spec m l cs _ _ t1
              (from_option Some None (last (take (length values) cs).*1)) Hr)
    as (t2 & Htail & Hsub2 & Hsame2).
  rewrite (bind_Returns _ _ _ _ _ Htail).
  destruct (listAssert_log_spec m l cs _ fuel t2 values failed Hr) as (t3 & Hlog & Hsub3 & Hsame3);
    [lia|done|].
  exists t3. split; [done|].
  destruct (decide (length cs = length values)) as [Hlens|Hlens].
  - assert (t0 = []) as Ht0nil.
    { unfold t0. rewrite decide_False; [done|]. intros Hne. apply Hne. by rewrite Hlens. }
    assert (take (length values) cs.*2 = cs.*2) as Htk1.
    { apply take_ge. rewrite length_fmap. lia. }
    assert (take (length cs) values = values) as Htk2 by (apply take_ge; lia).
    rewrite Htk1, Htk2 in Hsame, Hdiff.
    split.
    + intros Heq. destruct (Hsame Heq) as [-> ->].
      rewrite Hsame3 by done. rewrite Hsame2; [done|].
      rewrite take_ge by lia. by destruct (last cs.*1).
    + intros Hne. destruct (Hdiff Hne) as (_ & e & He & Herr).
      exists e. split; [|done]. by apply Hsub3, Hsub2.
  - split.
    + intros Heq. destruct Hlens. by rewrite <- Heq, length_fmap.
    + intros _. exists (Error_length (Z.of_nat (length values)) (Z.of_nat (length cs))).
      split; [|done]. apply Hsub3, Hsub2, Hsub1. unfold t0.
      rewrite decide_True by lia. left.
Qed.

End more.

(** * The further properties apply to the concrete instances *)

Lemma Find_returns_first_match_witness :
  is_list example_mem 1%positive example_cells ∧
  ∃ found, List_Find 4 (Some 1%positive) 3 example_mem = Returns found example_mem ∧
           (found = None ↔ 3 ∉ example_cells.*2) ∧
           (∀ f, found = Some f →
              ListNode_Value found example_mem = Returns (3, true) example_mem ∧
              ∃ cs1 cs2, example_cells = cs1 ++ (f, 3) :: cs2 ∧ 3 ∉ cs1.*2).
Proof.
  split; [exact example_is_list|].
  apply (Find_returns_first_match example_mem 1%positive example_cells 3 4
           example_is_list).
  simpl. lia.
Defined.

Lemma single_element_collapse_witness :
  is_list sentinel_mem 1%positive [(1%positive, 777)] ∧
  ∃ m', List_Delete 2 (Some 1%positive) 777 sentinel_mem = Returns true m' ∧
        List_DeleteHead (Some 1%positive) sentinel_mem = Returns (777, true) m' ∧
        List_DeleteTail 2 (Some 1%positive) sentinel_mem = Returns (777, true) m' ∧
        is_list m' 1%positive [] ∧
        List_Head (Some 1%positive) m' = Returns None m' ∧
        List_Tail (Some 1%positive) m' = Returns None m' ∧
        List_Length (Some 1%positive) m' = Returns 0 m' ∧
        ListNode_Value (Some 1%positive) m' = Returns (777, true) m'.
Proof.
  split; [exact sentinel_is_list|].
  apply (single_element_collapse sentinel_mem 1%positive 1%positive 777 2
           sentinel_is_list).
  lia.
Defined.

Lemma zero_value_header_panics_witness :
  List_Insert (Some 1%positive) 5 zero_header_mem = Panics ∧
  List_Append (Some 1%positive) 5 zero_header_mem = Panics ∧
  List_Find 3 (Some 1%positive) 5 zero_header_mem = Panics ∧
  List_Delete 3 (Some 1%positive) 5 zero_header_mem = Panics ∧
  List_DeleteHead (Some 1%positive) zero_header_mem = Panics ∧
  List_DeleteTail 3 (Some 1%positive) zero_header_mem = Panics ∧
  List_ForEach 3 (Some 1%positive) (λ v s, v :: s) [] zero_header_mem = Panics ∧
  List_String 3 (Some 1%positive) zero_header_mem = Panics ∧
  List_Head (Some 1%positive) zero_header_mem = Returns None zero_header_mem ∧
  List_Tail (Some 1%positive) zero_header_mem = Returns None zero_header_mem ∧
  List_Length (Some 1%positive) zero_header_mem = Returns 0 zero_header_mem.
Proof.
  apply (zero_value_header_panics zero_header_mem 1%positive (mkList None None 0 None)
           3 5 (λ v s, v :: s) []).
  - by vm_compute.
  - reflexivity.
Defined.

Lemma writer_excludes_all_witness :
  List_Insert (Some 1%positive) 5 (set_mux RWMutex_held 1%positive example_mem) = Blocks ∧
  List_Find 4 (Some 1%positive) 3 (set_mux RWMutex_held 1%positive example_mem) = Blocks ∧
  List_String 4 (Some 1%positive) (set_mux RWMutex_held 1%positive example_mem) = Blocks ∧
  List_Length (Some 1%positive) (set_mux RWMutex_held 1%positive example_mem)
  = Returns 3 (set_mux RWMutex_held 1%positive example_mem).
Proof.
  destruct (writer_excludes_all (set_mux RWMutex_held 1%positive example_mem)
              1%positive example_cells 3 4 5 (λ (v : Z) (s : list Z), v :: s) []
              (repr_set_mux _ _ _ _ _ RWMutex_held (proj1 example_is_list)))
    as (Hi & _ & _ & _ & _ & Hf & _ & Hs & _ & _ & Hl).
  by split_and!.
Defined.


Lemma insert_delete_round_trips_witness :
  (∃ m1 m2, List_Insert (Some 1%positive) 7 example_mem = Returns None m1 ∧
            List_DeleteHead (Some 1%positive) m1 = Returns (7, true) m2 ∧
            is_list m2 1%positive example_cells) ∧
  (∃ m1 m2, List_Append (Some 1%positive) 7 example_mem = Returns None m1 ∧
            List_DeleteTail 5 (Some 1%positive) m1 = Returns (7, true) m2 ∧
            is_list m2 1%positive example_cells).
Proof.
  destruct (insert_delete_round_trips example_mem 1%positive example_cells 7 5
              example_is_list) as (H1 & H2 & _).
  - by vm_compute.
  - simpl. lia.
  - by split.
Defined.

Lemma Insert_then_observe_witness :
  ∃ p m', List_Insert (Some 1%positive) 7 example_mem = Returns None m' ∧
          nodes example_mem !! p = None ∧
          List_Head (Some 1%positive) m' = Returns (Some p) m' ∧
          ListNode_Value (Some p) m' = Returns (7, true) m' ∧
          ListNode_Next (Some p) m' = Returns (head example_cells.*1) m' ∧
          List_Find 4 (Some 1%positive) 7 m' = Returns (Some p) m' ∧
          List_Tail (Some 1%positive) m'
          = Returns (Some (default p (last example_cells.*1))) m' ∧
          List_Length (Some 1%positive) m'
          = Returns (Z.of_nat (length example_cells) + 1) m'.
Proof.
  apply (Insert_then_observe example_mem 1%positive example_cells 7 4 example_is_list).
  - by vm_compute.
  - lia.
Defined.

Lemma Append_then_observe_witness :
  ∃ p m', List_Append (Some 1%positive) 7 example_mem = Returns None m' ∧
          nodes example_mem !! p = None ∧
          List_Tail (Some 1%positive) m' = Returns (Some p) m' ∧
          ListNode_Value (Some p) m' = Returns (7, true) m' ∧
          ListNode_Next (Some p) m' = Returns None m' ∧
          List_Head (Some 1%positive) m'
          = Returns (Some (default p (head example_cells.*1))) m' ∧
          List_Length (Some 1%positive) m'
          = Returns (Z.of_nat (length example_cells) + 1) m' ∧
          (7 ∉ example_cells.*2 → List_Find 4 (Some 1%positive) 7 m' = Returns (Some p) m').
Proof.
  apply (Append_then_observe example_mem 1%positive example_cells 7 4 example_is_list).
  - by vm_compute.
  - simpl. lia.
Defined.

Lemma Delete_unlinks_what_Find_returns_witness :
  ∃ m', List_Find 4 (Some 1%positive) 3 example_mem = Returns (Some 2%positive) example_mem ∧
        List_Delete 4 (Some 1%positive) 3 example_mem = Returns true m' ∧
        is_list m' 1%positive ([(3%positive, 1)] ++ [(1%positive, 4)]) ∧
        ListNode_Value (Some 2%positive) m' = Returns (3, true) m' ∧
        (3 ∉ [(1%positive, 4)].*2 → List_Find 4 (Some 1%positive) 3 m' = Returns None m') ∧
        (∀ cs3 g cs4, [(1%positive, 4)] = cs3 ++ (g, 3) :: cs4 → 3 ∉ cs3.*2 →
           List_Find 4 (Some 1%positive) 3 m' = Returns (Some g) m').
Proof.
  apply (Delete_unlinks_what_Find_returns example_mem 1%positive 2%positive
           [(3%positive, 1)] [(1%positive, 4)] 3 4 example_is_list).
  - cbn. intros [?|?%elem_of_nil]%elem_of_cons; done.
  - simpl. lia.
Defined.

Lemma Delete_of_head_value_is_DeleteHead_witness :
  ∃ m', List_Delete 1 (Some 1%positive) 1 example_mem = Returns true m' ∧
        List_DeleteHead (Some 1%positive) example_mem = Returns (1, true) m' ∧
        is_list m' 1%positive [(2%positive, 3); (1%positive, 4)].
Proof.
  apply (Delete_of_head_value_is_DeleteHead example_mem 1%positive 3%positive 1
           [(2%positive, 3); (1%positive, 4)] 1 example_is_list).
  lia.
Defined.

Lemma node_values_are_stable_witness :
  ∃ m', exec 5 (Some 1%positive) [Op_Delete 3; Op_Insert 9; Op_DeleteTail] example_mem
        = Returns () m' ∧
        ListNode_Value (Some 2%positive) m' = Returns (3, true) m'.
Proof.
  eexists. split; [vm_compute; reflexivity|].
  lazymatch goal with
  | |- ListNode_Value _ ?m' = _ =>
      apply (node_values_are_stable example_mem m' 5 (Some 1%positive) (Some 2%positive)
               [Op_Delete 3; Op_Insert 9; Op_DeleteTail] 3)
  end.
  - vm_compute. reflexivity.
  - vm_compute. reflexivity.
Defined.

Lemma listAssert_is_an_oracle_witness :
  listAssert 4 [] (Some 1%positive) [1; 3; 4] example_mem = Returns [] example_mem ∧
  ∃ t, listAssert 4 [] (Some 1%positive) [1; 2; 4] example_mem = Returns t example_mem ∧
       ∃ e, e ∈ t ∧ is_error e = true.
Proof.
  split.
  - destruct (listAssert_is_an_oracle example_mem 1%positive example_cells [1; 3; 4] 4
                example_is_list) as (_ & t & Ht & Hsame & _); [simpl; lia|].
    by rewrite Ht, Hsame.
  - destruct (listAssert_is_an_oracle example_mem 1%positive example_cells [1; 2; 4] 4
                example_is_list) as (_ & t & Ht & _ & Hdiff); [simpl; lia|].
    exists t. split; [done|]. by apply Hdiff.
Defined.
